(** * The Slider component of styled-ui: interaction state machine

    A shallow embedding of [src/components/slider/component.jsx].

    The component instance, the part of the host it talks to (the document's
    listener table, the timer queue, the clock) and the log of the callbacks
    it invokes are gathered in one record, [World]; every handler of the
    class is a function [World -> World] that keeps the name it has in the
    source. The two wrappers the class builds with [lodash.throttle] and
    [lodash.debounce] are embedded with their closure state, function by
    function.

    Numbers. Stop indices ([stopCount], [minValue], [maxValue], the integer
    results of [Math.round]) are in [Z]; pointer coordinates and the bounding
    rectangle are in [Q], with exact arithmetic in place of IEEE doubles.
    [null], [undefined] and [NaN] are kept as values because the code
    produces and compares them. *)

From Stdlib Require Import ZArith QArith Qround Qminmax List String Bool Lia.
Import ListNotations.
Local Open Scope Z_scope.

(** ** JavaScript values held in [value] *)

Inductive jsval : Type :=
| JUndefined
| JNull
| JNaN
| JInt (z : Z).

(** [ToNumber]: [None] stands for [NaN]. *)
Definition ToNumber (v : jsval) : option Z :=
  match v with
  | JUndefined => None
  | JNull => Some 0
  | JNaN => None
  | JInt z => Some z
  end.

Definition of_number (n : option Z) : jsval :=
  match n with
  | Some z => JInt z
  | None => JNaN
  end.

(** [a > b] and [a < b]: false as soon as one side is [NaN]. *)
Definition js_gt (a b : jsval) : bool :=
  match ToNumber a, ToNumber b with
  | Some x, Some y => y <? x
  | _, _ => false
  end.

Definition js_lt (a b : jsval) : bool :=
  match ToNumber a, ToNumber b with
  | Some x, Some y => x <? y
  | _, _ => false
  end.

(** [a + 1] and [a - 1] on a value that is not a string. *)
Definition js_add (a : jsval) (k : Z) : jsval :=
  of_number (option_map (fun x => x + k) (ToNumber a)).

Definition js_sub (a : jsval) (k : Z) : jsval :=
  of_number (option_map (fun x => x - k) (ToNumber a)).

(** [a !== b]: [NaN] differs from everything, itself included. *)
Definition strict_neq (a b : jsval) : bool :=
  match a, b with
  | JUndefined, JUndefined => false
  | JNull, JNull => false
  | JInt x, JInt y => negb (x =? y)
  | _, _ => true
  end.

(** An optional numeric prop: [None] is a prop that was not passed. *)
Definition prop_val (o : option Z) : jsval :=
  match o with
  | Some z => JInt z
  | None => JUndefined
  end.

(** ** Floating quantities of [calculateValue] *)

Definition Math_max (a b : Q) : Q := if Qle_bool a b then b else a.
Definition Math_min (a b : Q) : Q := if Qle_bool a b then a else b.

(** [a / b]. [None] is a result that is not finite. The component divides
    only [clampedX] by [width], and [clampedX] is [0] when [width] is [0]
    (lemma [clampedX_zero_width]), so the result that is not finite is
    [0 / 0 = NaN]. *)
Definition js_div (a b : Q) : option Q :=
  if Qeq_bool b 0 then None else Some (a / b)%Q.

Definition js_mul (a : option Q) (k : Z) : option Q :=
  option_map (fun x => (x * inject_Z k)%Q) a.

(** [Math.round]: nearest integer, halves towards plus infinity. *)
Definition Math_round (a : option Q) : jsval :=
  match a with
  | Some x => JInt (Qfloor (x + (1 # 2)))
  | None => JNaN
  end.

(** ** Props, state, host *)

Record Props : Type := mkProps {
  disabled : bool;
  value : jsval;
  minValue : option Z;
  maxValue : option Z;
  onSlide : bool;      (* whether the callback was passed *)
  onStop : bool;
  stopCount : Z
}.

Record State : Type := mkState {
  st_value : jsval;
  isHovered : bool;
  isSliding : bool
}.

(** What [getBoundingClientRect] gives for the element under [_slider]. *)
Record Rect : Type := mkRect {
  left : Q;
  right : Q
}.

(** The callbacks of the parent, as they are logged. *)
Inductive Call : Type :=
| OnSlide (v : jsval)
| OnStop (v : jsval).

(** The functions the component hands to [setTimeout]. *)
Inductive TimerCb : Type :=
| PopoverTimeout (isOpen : bool)   (* the arrow functions of handleTogglePopover *)
| KeyInputExpired                  (* timerExpired of handleDebouncedKeyInput *)
| KeyDownExpired.                  (* timerExpired of handleThrottledKeyDown *)

Record Timer : Type := mkTimer {
  timer_id : nat;
  deadline : Z;
  callback : TimerCb
}.

(** The listeners the component registers on [document]. *)
Inductive Listener : Type :=
| Lmousemove
| Lmouseup
| Ltouchmove
| Ltouchend.

Definition Listener_eqb (a b : Listener) : bool :=
  match a, b with
  | Lmousemove, Lmousemove | Lmouseup, Lmouseup
  | Ltouchmove, Ltouchmove | Ltouchend, Ltouchend => true
  | _, _ => false
  end.

(** Closure variables of a function made by lodash's [debounce]. *)
Record Debounced (A : Type) : Type := mkDebounced {
  lastArgs : option A;
  lastCallTime : option Z;
  lastInvokeTime : Z;
  timerId : option nat
}.
Arguments mkDebounced {A}.
Arguments lastArgs {A}.
Arguments lastCallTime {A}.
Arguments lastInvokeTime {A}.
Arguments timerId {A}.

Definition fresh_debounced {A : Type} : Debounced A :=
  mkDebounced None None 0 None.

Record World : Type := mkWorld {
  props : Props;
  state : State;
  alive : bool;                       (* mounted: React accepts setState *)
  slider_current : option Rect;       (* this._slider.current *)
  timeout_ : option nat;              (* this._timeout *)
  keyDownThrottle : Debounced string; (* closure of handleThrottledKeyDown *)
  keyInputDebounce : Debounced unit;  (* closure of handleDebouncedKeyInput *)
  listeners : list Listener;          (* document *)
  timers : list Timer;                (* pending timeouts, oldest first *)
  next_timer : nat;
  now : Z;                            (* Date.now(), in milliseconds *)
  calls : list (Z * Call);            (* callback log, oldest first *)
  prevented : nat                     (* number of event.preventDefault() *)
}.

Definition Handler : Type := World -> World.

Definition set_props (p : Props) : Handler := fun w =>
  mkWorld p (state w) (alive w) (slider_current w) (timeout_ w)
    (keyDownThrottle w) (keyInputDebounce w) (listeners w) (timers w)
    (next_timer w) (now w) (calls w) (prevented w).

Definition set_state (s : State) : Handler := fun w =>
  mkWorld (props w) s (alive w) (slider_current w) (timeout_ w)
    (keyDownThrottle w) (keyInputDebounce w) (listeners w) (timers w)
    (next_timer w) (now w) (calls w) (prevented w).

Definition set_alive (b : bool) : Handler := fun w =>
  mkWorld (props w) (state w) b (slider_current w) (timeout_ w)
    (keyDownThrottle w) (keyInputDebounce w) (listeners w) (timers w)
    (next_timer w) (now w) (calls w) (prevented w).

Definition set_slider_current (r : option Rect) : Handler := fun w =>
  mkWorld (props w) (state w) (alive w) r (timeout_ w)
    (keyDownThrottle w) (keyInputDebounce w) (listeners w) (timers w)
    (next_timer w) (now w) (calls w) (prevented w).

Definition set_timeout_ (t : option nat) : Handler := fun w =>
  mkWorld (props w) (state w) (alive w) (slider_current w) t
    (keyDownThrottle w) (keyInputDebounce w) (listeners w) (timers w)
    (next_timer w) (now w) (calls w) (prevented w).

Definition set_keyDownThrottle (d : Debounced string) : Handler := fun w =>
  mkWorld (props w) (state w) (alive w) (slider_current w) (timeout_ w)
    d (keyInputDebounce w) (listeners w) (timers w)
    (next_timer w) (now w) (calls w) (prevented w).

Definition set_keyInputDebounce (d : Debounced unit) : Handler := fun w =>
  mkWorld (props w) (state w) (alive w) (slider_current w) (timeout_ w)
    (keyDownThrottle w) d (listeners w) (timers w)
    (next_timer w) (now w) (calls w) (prevented w).

Definition set_listeners (l : list Listener) : Handler := fun w =>
  mkWorld (props w) (state w) (alive w) (slider_current w) (timeout_ w)
    (keyDownThrottle w) (keyInputDebounce w) l (timers w)
    (next_timer w) (now w) (calls w) (prevented w).

Definition set_timers (l : list Timer) (n : nat) : Handler := fun w =>
  mkWorld (props w) (state w) (alive w) (slider_current w) (timeout_ w)
    (keyDownThrottle w) (keyInputDebounce w) (listeners w) l
    n (now w) (calls w) (prevented w).

Definition set_now (t : Z) : Handler := fun w =>
  mkWorld (props w) (state w) (alive w) (slider_current w) (timeout_ w)
    (keyDownThrottle w) (keyInputDebounce w) (listeners w) (timers w)
    (next_timer w) t (calls w) (prevented w).

Definition set_calls (l : list (Z * Call)) : Handler := fun w =>
  mkWorld (props w) (state w) (alive w) (slider_current w) (timeout_ w)
    (keyDownThrottle w) (keyInputDebounce w) (listeners w) (timers w)
    (next_timer w) (now w) l (prevented w).

Definition set_prevented (n : nat) : Handler := fun w =>
  mkWorld (props w) (state w) (alive w) (slider_current w) (timeout_ w)
    (keyDownThrottle w) (keyInputDebounce w) (listeners w) (timers w)
    (next_timer w) (now w) (calls w) n.

(** *** Host operations *)

(** [setTimeout(cb, delay)]: the handle is a positive integer. *)
Definition setTimeout (cb : TimerCb) (delay : Z) (w : World) : nat * World :=
  let id := next_timer w in
  (id, set_timers (timers w ++ [mkTimer id (now w + Z.max delay 0) cb]) (S id) w).

Definition clearTimeout (id : nat) : Handler := fun w =>
  set_timers (filter (fun t => negb (Nat.eqb (timer_id t) id)) (timers w))
    (next_timer w) w.

(** [document.addEventListener]: a listener already present is not added
    again. *)
Definition addEventListener (l : Listener) : Handler := fun w =>
  if existsb (Listener_eqb l) (listeners w) then w
  else set_listeners (listeners w ++ [l]) w.

Definition removeEventListener (l : Listener) : Handler := fun w =>
  set_listeners (filter (fun x => negb (Listener_eqb l x)) (listeners w)) w.

Definition preventDefault : Handler := fun w =>
  set_prevented (S (prevented w)) w.

(** A call of a callback of the parent, made when the prop is there. *)
Definition invoke (provided : bool) (c : Call) : Handler := fun w =>
  if provided then set_calls (calls w ++ [(now w, c)]) w else w.

(** [this.setState(update, callback)]. React drops the update, and the
    callback with it, once the component is unmounted. *)
Definition setState (update : State -> State) (callback : Handler) : Handler :=
  fun w =>
    if alive w then callback (set_state (update (state w)) w) else w.

Definition done : Handler := fun w => w.

(** ** The component *)

(** [calculateValue = clientX => ...] *)
Definition calculateValue (p : Props) (current : option Rect) (clientX : Q)
  : jsval :=
  match current with
  | None => JNull
  | Some rect =>
      let width := (right rect - left rect)%Q in
      let pos := (clientX - left rect)%Q in
      let clampedX := Math_min (Math_max 0 pos) width in
      let newValue :=
        Math_round (js_mul (js_div clampedX width) (stopCount p - 1)) in
      if js_gt newValue (prop_val (maxValue p)) then prop_val (maxValue p)
      else if js_lt newValue (prop_val (minValue p)) then prop_val (minValue p)
      else newValue
  end.

(** [handleTogglePopover = (isOpen, delay = 0) => ...]. Timer handles are
    positive, so [if (this._timeout)] tests that a handle is stored. *)
Definition handleTogglePopover (isOpen : bool) (delay : Z) : Handler := fun w =>
  if negb isOpen then
    let w := match timeout_ w with
             | Some id => clearTimeout id w
             | None => w
             end in
    let (id, w) := setTimeout (PopoverTimeout false) delay w in
    set_timeout_ (Some id) w
  else
    let w := match timeout_ w with
             | Some id => clearTimeout id w
             | None => w
             end in
    let (id, w) := setTimeout (PopoverTimeout true) delay w in
    set_timeout_ (Some id) w.

(** The arrow function [handleTogglePopover] gives to [setTimeout]. *)
Definition popoverTimeout (isOpen : bool) : Handler := fun w =>
  let w := setState (fun s => mkState (st_value s) isOpen (isSliding s)) done w in
  set_timeout_ None w.

(** ** lodash [debounce] and [throttle]

    [lodash.debounce] and [lodash.throttle] are dependencies of the
    component. The section follows the functions of [debounce] in those
    packages one by one ([cancel] and [flush], which the component never
    calls, are left out); [result] is not kept because the component
    ignores what the wrappers return. *)

Record DebounceOptions : Type := mkOptions {
  wait : Z;
  leading : bool;
  maxing : bool;
  maxWait : Z;      (* read only when [maxing] *)
  trailing : bool
}.

(** [debounce(func, wait)] *)
Definition debounce_options (wait : Z) : DebounceOptions :=
  mkOptions wait false false 0 true.

(** [throttle(func, wait)], which is
    [debounce(func, wait, {leading: true, maxWait: wait, trailing: true})];
    [debounce] takes [max(maxWait, wait)]. *)
Definition throttle_options (wait : Z) : DebounceOptions :=
  mkOptions wait true true (Z.max wait wait) true.

Definition with_lastArgs {A} (a : option A) (d : Debounced A) : Debounced A :=
  mkDebounced a (lastCallTime d) (lastInvokeTime d) (timerId d).
Definition with_lastCallTime {A} (t : option Z) (d : Debounced A) : Debounced A :=
  mkDebounced (lastArgs d) t (lastInvokeTime d) (timerId d).
Definition with_lastInvokeTime {A} (t : Z) (d : Debounced A) : Debounced A :=
  mkDebounced (lastArgs d) (lastCallTime d) t (timerId d).
Definition with_timerId {A} (i : option nat) (d : Debounced A) : Debounced A :=
  mkDebounced (lastArgs d) (lastCallTime d) (lastInvokeTime d) i.

Section Debounce.
Context {A : Type}.
Variable o : DebounceOptions.
(** Where the closure lives in the world. *)
Variable get : World -> Debounced A.
Variable put : Debounced A -> Handler.
(** The wrapped function, and the tag of [timerExpired] in the queue. *)
Variable func : A -> Handler.
Variable expired : TimerCb.

Definition modify (f : Debounced A -> Debounced A) : Handler := fun w =>
  put (f (get w)) w.

(** [invokeFunc] is reached only with [lastArgs] set. *)
Definition invokeFunc (time : Z) : Handler := fun w =>
  let args := lastArgs (get w) in
  let w := modify (with_lastArgs None) w in
  let w := modify (with_lastInvokeTime time) w in
  match args with
  | Some a => func a w
  | None => w
  end.

Definition leadingEdge (time : Z) : Handler := fun w =>
  let w := modify (with_lastInvokeTime time) w in
  let (id, w) := setTimeout expired (wait o) w in
  let w := modify (with_timerId (Some id)) w in
  if leading o then invokeFunc time w else w.

(** Reached from [timerExpired] only, after a call has set
    [lastCallTime]. *)
Definition remainingWait (time : Z) (d : Debounced A) : Z :=
  let timeSinceLastCall := time - match lastCallTime d with
                                  | Some t => t
                                  | None => time
                                  end in
  let timeSinceLastInvoke := time - lastInvokeTime d in
  let result := wait o - timeSinceLastCall in
  if maxing o then Z.min result (maxWait o - timeSinceLastInvoke) else result.

Definition shouldInvoke (time : Z) (d : Debounced A) : bool :=
  match lastCallTime d with
  | None => true
  | Some lastCall =>
      let timeSinceLastCall := time - lastCall in
      let timeSinceLastInvoke := time - lastInvokeTime d in
      (wait o <=? timeSinceLastCall) || (timeSinceLastCall <? 0)
      || (maxing o && (maxWait o <=? timeSinceLastInvoke))
  end.

Definition trailingEdge (time : Z) : Handler := fun w =>
  let w := modify (with_timerId None) w in
  match lastArgs (get w) with
  | Some _ => if trailing o then invokeFunc time w
              else modify (with_lastArgs None) w
  | None => modify (with_lastArgs None) w
  end.

Definition timerExpired : Handler := fun w =>
  let time := now w in
  if shouldInvoke time (get w) then trailingEdge time w
  else
    let (id, w) := setTimeout expired (remainingWait time (get w)) w in
    modify (with_timerId (Some id)) w.

Definition debounced (args : A) : Handler := fun w =>
  let time := now w in
  let isInvoking := shouldInvoke time (get w) in
  let w := modify (with_lastArgs (Some args)) w in
  let w := modify (with_lastCallTime (Some time)) w in
  let later : Handler := fun w =>
    match timerId (get w) with
    | None =>
        let (id, w) := setTimeout expired (wait o) w in
        modify (with_timerId (Some id)) w
    | Some _ => w
    end in
  if isInvoking then
    match timerId (get w) with
    | None => leadingEdge time w
    | Some _ =>
        if maxing o then
          (* a tight loop of calls *)
          let (id, w) := setTimeout expired (wait o) w in
          let w := modify (with_timerId (Some id)) w in
          invokeFunc time w
        else later w
    end
  else later w.
End Debounce.

(** [handleDebouncedKeyInput = debounce(() => ..., 250)] *)
Definition handleDebouncedKeyInput_func (_ : unit) : Handler := fun w =>
  let w := handleTogglePopover false 150 w in
  invoke (onStop (props w)) (OnStop (st_value (state w))) w.

Definition handleDebouncedKeyInput : Handler :=
  debounced (debounce_options 250) keyInputDebounce set_keyInputDebounce
    handleDebouncedKeyInput_func KeyInputExpired tt.

Definition keyInputExpired : Handler :=
  timerExpired (debounce_options 250) keyInputDebounce set_keyInputDebounce
    handleDebouncedKeyInput_func KeyInputExpired.

Local Open Scope string_scope.

(** The function under [handleThrottledKeyDown = throttle(event => ..., 50)];
    of the event it reads [event.key]. *)
Definition handleThrottledKeyDown_func (key : string) : Handler := fun w =>
  let p := props w in
  let currentValue := st_value (state w) in
  if disabled p then
    setState (fun s => mkState (st_value s) true (isSliding s))
      (handleTogglePopover false 400) w
  else if (key =? "ArrowDown") || (key =? "ArrowRight") then
    let newValue := js_add currentValue 1 in
    let value :=
      if js_gt newValue (prop_val (maxValue p)) then prop_val (maxValue p)
      else if js_gt newValue (JInt (stopCount p - 1)) then JInt (stopCount p - 1)
      else newValue in
    setState (fun s => mkState value true (isSliding s))
      (fun w =>
         let w := handleDebouncedKeyInput w in
         invoke (onSlide (props w)) (OnSlide value) w) w
  else if (key =? "ArrowUp") || (key =? "ArrowLeft") then
    let newValue := js_sub currentValue 1 in
    let value :=
      if js_lt newValue (prop_val (minValue p)) then prop_val (minValue p)
      else if js_lt newValue (JInt 0) then JInt 0
      else newValue in
    setState (fun s => mkState value true (isSliding s))
      (fun w =>
         let w := handleDebouncedKeyInput w in
         invoke (onSlide (props w)) (OnSlide value) w) w
  else w.

Definition handleThrottledKeyDown : string -> Handler :=
  debounced (throttle_options 50) keyDownThrottle set_keyDownThrottle
    handleThrottledKeyDown_func KeyDownExpired.

Definition keyDownExpired : Handler :=
  timerExpired (throttle_options 50) keyDownThrottle set_keyDownThrottle
    handleThrottledKeyDown_func KeyDownExpired.

(** [handleKeyDown]; [event.persist()] only keeps the event readable. *)
Definition handleKeyDown (key : string) : Handler := fun w =>
  if (key =? "Tab") || (key =? "Escape") then w
  else
    let w := preventDefault w in
    handleThrottledKeyDown key w.

Local Close Scope string_scope.

(** [componentWillReceiveProps(nextProps)] *)
Definition componentWillReceiveProps (nextProps : Props) : Handler := fun w =>
  if strict_neq (value nextProps) (st_value (state w)) then
    setState (fun s => mkState (value nextProps) (isHovered s) (isSliding s))
      done w
  else w.

(** [componentWillUnmount()] *)
Definition componentWillUnmount : Handler := fun w =>
  match timeout_ w with
  | Some id => clearTimeout id w
  | None => w
  end.

(** [handleTouchMove]; [clientX] is [event.touches[0].clientX]. *)
Definition handleTouchMove (clientX : Q) : Handler := fun w =>
  if disabled (props w) then w
  else
    let w := preventDefault w in
    let value := calculateValue (props w) (slider_current w) clientX in
    if strict_neq (st_value (state w)) value then
      let w := invoke (onSlide (props w)) (OnSlide value) w in
      setState (fun s => mkState value (isHovered s) (isSliding s)) done w
    else w.

Definition handleTouchStart (clientX : Q) : Handler := fun w =>
  if disabled (props w) then w
  else
    let w := preventDefault w in
    let w := addEventListener Ltouchmove w in
    let w := addEventListener Ltouchend w in
    let w := setState (fun s => mkState (st_value s) true true) done w in
    handleTouchMove clientX w.

Definition handleTouchEnd : Handler := fun w =>
  if disabled (props w) then w
  else
    let w := preventDefault w in
    let w := removeEventListener Ltouchmove w in
    let w := removeEventListener Ltouchend w in
    let w := invoke (onStop (props w)) (OnStop (st_value (state w))) w in
    let w := setState (fun s => mkState (st_value s) (isHovered s) false) done w in
    handleTogglePopover false 250 w.

Definition handleMouseMove (clientX : Q) : Handler := fun w =>
  if disabled (props w) then w
  else
    let w := preventDefault w in
    let value := calculateValue (props w) (slider_current w) clientX in
    if strict_neq (st_value (state w)) value then
      let w := invoke (onSlide (props w)) (OnSlide value) w in
      setState (fun s => mkState value true (isSliding s)) done w
    else w.

Definition handleMouseDown (button : Z) (clientX : Q) : Handler := fun w =>
  if disabled (props w) then w
  else if negb (button =? 0) || isSliding (state w) then w
  else
    let w := preventDefault w in
    let w := addEventListener Lmousemove w in
    let w := addEventListener Lmouseup w in
    let w := setState (fun s => mkState (st_value s) true true) done w in
    handleMouseMove clientX w.

Definition handleMouseUp : Handler := fun w =>
  if disabled (props w) then w
  else
    let w := preventDefault w in
    let w := removeEventListener Lmousemove w in
    let w := removeEventListener Lmouseup w in
    let w := invoke (onStop (props w)) (OnStop (st_value (state w))) w in
    let w := setState (fun s => mkState (st_value s) (isHovered s) false) done w in
    handleTogglePopover false 0 w.

Definition handleMouseEnter : Handler := fun w =>
  let w := preventDefault w in
  handleTogglePopover true 0 w.

Definition handleMouseLeave : Handler := fun w =>
  let w := preventDefault w in
  handleTogglePopover false 0 w.

(** ** The host: mounting, events, timers *)

(** The instance right after it is mounted with props [p] over an element
    whose rectangle is [r], at time [t0]. *)
Definition mount (p : Props) (r : Rect) (t0 : Z) : World :=
  mkWorld p (mkState (value p) false false) true (Some r) None
    fresh_debounced fresh_debounced [] [] 1%nat t0 [] 0%nat.

(** React unmounts the instance: [componentWillUnmount] runs, the ref is
    detached, later [setState] calls are dropped. The document keeps
    whatever listeners are still registered. *)
Definition unmount : Handler := fun w =>
  let w := componentWillUnmount w in
  set_alive false (set_slider_current None w).

(** React passes new props to a mounted instance. *)
Definition receiveProps (nextProps : Props) : Handler := fun w =>
  let w := componentWillReceiveProps nextProps w in
  set_props nextProps w.

Inductive Event : Type :=
| MouseDown (button : Z) (clientX : Q)
| MouseMove (clientX : Q)
| MouseUp
| TouchStart (clientX : Q)
| TouchMove (clientX : Q)
| TouchEnd
| KeyDown (key : string)
| MouseEnter
| MouseLeave
| ReceiveProps (nextProps : Props)
| Unmount.

Definition registered (l : Listener) (w : World) : bool :=
  existsb (Listener_eqb l) (listeners w).

(** An event on the element reaches its handler while the element exists; an
    event on the document reaches the handler registered for it. *)
Definition dispatch (e : Event) : Handler := fun w =>
  match e with
  | MouseDown button clientX =>
      if alive w then handleMouseDown button clientX w else w
  | TouchStart clientX => if alive w then handleTouchStart clientX w else w
  | KeyDown key => if alive w then handleKeyDown key w else w
  | MouseEnter => if alive w then handleMouseEnter w else w
  | MouseLeave => if alive w then handleMouseLeave w else w
  | MouseMove clientX =>
      if registered Lmousemove w then handleMouseMove clientX w else w
  | MouseUp => if registered Lmouseup w then handleMouseUp w else w
  | TouchMove clientX =>
      if registered Ltouchmove w then handleTouchMove clientX w else w
  | TouchEnd => if registered Ltouchend w then handleTouchEnd w else w
  | ReceiveProps nextProps => if alive w then receiveProps nextProps w else w
  | Unmount => if alive w then unmount w else w
  end.

Definition run_callback (cb : TimerCb) : Handler :=
  match cb with
  | PopoverTimeout isOpen => popoverTimeout isOpen
  | KeyInputExpired => keyInputExpired
  | KeyDownExpired => keyDownExpired
  end.

(** The pending timer that fires first: the least deadline, the oldest among
    equals. *)
Fixpoint earliest (ts : list Timer) : option Timer :=
  match ts with
  | [] => None
  | t :: rest =>
      match earliest rest with
      | Some u => if deadline u <? deadline t then Some u else Some t
      | None => Some t
      end
  end.

Definition next_due (T : Z) (w : World) : option Timer :=
  match earliest (timers w) with
  | Some t => if deadline t <=? T then Some t else None
  | None => None
  end.

(** The timer leaves the queue, the clock reaches its deadline, its function
    runs. *)
Definition fire (t : Timer) : Handler := fun w =>
  let w := clearTimeout (timer_id t) w in
  let w := set_now (Z.max (now w) (deadline t)) w in
  run_callback (callback t) w.

(** Let time pass until [T]: the timers due by then fire in order. [None]
    when [fuel] firings were not enough. *)
Fixpoint advance (fuel : nat) (T : Z) (w : World) : option World :=
  match next_due T w with
  | None => Some (set_now (Z.max (now w) T) w)
  | Some t =>
      match fuel with
      | O => None
      | S fuel' => advance fuel' T (fire t w)
      end
  end.

(** A schedule: events with the times at which they arrive. *)
Fixpoint run (fuel : nat) (es : list (Z * Event)) (w : World) : option World :=
  match es with
  | [] => Some w
  | (t, e) :: rest =>
      match advance fuel t w with
      | Some w' => run fuel rest (dispatch e w')
      | None => None
      end
  end.

(** The schedule, then the passing of time until [T]. *)
Definition run_until (fuel : nat) (es : list (Z * Event)) (T : Z) (w : World)
  : option World :=
  match run fuel es w with
  | Some w' => advance fuel T w'
  | None => None
  end.

Definition stops (w : World) : list (Z * jsval) :=
  flat_map (fun c => match snd c with
                     | OnStop v => [(fst c, v)]
                     | OnSlide _ => []
                     end) (calls w).

Definition slides (w : World) : list (Z * jsval) :=
  flat_map (fun c => match snd c with
                     | OnSlide v => [(fst c, v)]
                     | OnStop _ => []
                     end) (calls w).

(** * Properties *)

(** ** The value mapper *)

Section ValueMapper.
Local Open Scope Q_scope.

(** The mapping in the words of the specification. *)
Definition clamp (x lo hi : Q) : Q := Qmin (Qmax x lo) hi.

Definition round (x : Q) : Z := Qfloor (x + (1 # 2)).



(** Bounds that are set are stops, in order. *)
Definition bounds_wf (p : Props) : Prop :=
  match minValue p with
  | Some m => (0 <= m <= stopCount p - 1)%Z
  | None => True
  end /\
  match maxValue p with
  | Some m => (0 <= m <= stopCount p - 1)%Z
  | None => True
  end /\
  match minValue p, maxValue p with
  | Some m, Some m' => (m <= m')%Z
  | _, _ => True
  end.

Definition within_bounds (p : Props) (v : Z) : Prop :=
  match minValue p with Some m => (m <= v)%Z | None => True end /\
  match maxValue p with Some m => (v <= m)%Z | None => True end.

Lemma Math_max_spec a b : Math_max a b == Qmax b a.
Proof.
  unfold Math_max. destruct (Qle_bool a b) eqn:E.
  - apply Qle_bool_iff in E. symmetry. apply Q.max_l. exact E.
  - symmetry. apply Q.max_r. apply Qlt_le_weak, Qnot_le_lt.
    intro H. apply Qle_bool_iff in H. congruence.
Qed.

Lemma Math_min_spec a b : Math_min a b == Qmin a b.
Proof.
  unfold Math_min. destruct (Qle_bool a b) eqn:E.
  - apply Qle_bool_iff in E. symmetry. apply Q.min_l. exact E.
  - symmetry. apply Q.min_r. apply Qlt_le_weak, Qnot_le_lt.
    intro H. apply Qle_bool_iff in H. congruence.
Qed.

Lemma clampedX_spec pos width :
  Math_min (Math_max 0 pos) width == clamp pos 0 width.
Proof.
  unfold clamp. rewrite Math_min_spec, Math_max_spec. reflexivity.
Qed.

Lemma clamp_range x w : 0 <= w -> 0 <= clamp x 0 w <= w.
Proof.
  intro Hw. unfold clamp. split.
  - apply Q.min_glb; [apply Q.le_max_r | exact Hw].
  - apply Q.le_min_r.
Qed.

(** With no width the clamped position is [0]: the quotient of
    [calculateValue] is then [0 / 0]. *)
Lemma clampedX_zero_width pos width :
  width == 0 -> Math_min (Math_max 0 pos) width == 0.
Proof.
  intro Hw. rewrite clampedX_spec.
  assert (H : 0 <= clamp pos 0 width <= width)
    by (apply clamp_range; rewrite Hw; apply Qle_refl).
  destruct H as [H1 H2]. apply Qle_antisym; [ | exact H1].
  apply Qle_trans with width; [exact H2 | ].
  apply Qle_lteq. right. exact Hw.
Qed.

Lemma scaled_range c w (n : Z) :
  0 < w -> 0 <= c <= w -> (1 <= n)%Z ->
  0 <= c / w * inject_Z (n - 1) <= inject_Z (n - 1).
Proof.
  intros Hw [Hc1 Hc2] Hn.
  assert (Hn' : 0 <= inject_Z (n - 1)).
  { change 0 with (inject_Z 0). rewrite <- Zle_Qle. lia. }
  assert (Hr0 : 0 <= c / w).
  { apply Qle_shift_div_l; [exact Hw | ]. rewrite Qmult_0_l. exact Hc1. }
  assert (Hr1 : c / w <= 1).
  { apply Qle_shift_div_r; [exact Hw | ]. rewrite Qmult_1_l. exact Hc2. }
  split.
  - apply Qmult_le_0_compat; assumption.
  - rewrite <- (Qmult_1_l (inject_Z (n - 1))) at 2.
    apply Qmult_le_compat_r; assumption.
Qed.

Lemma round_range x (n : Z) :
  0 <= x <= inject_Z (n - 1) -> (0 <= round x <= n - 1)%Z.
Proof.
  intros [H0 H1]. unfold round. split.
  - rewrite <- (Qfloor_Z 0). apply Qfloor_resp_le.
    change (inject_Z 0) with (0 + 0). apply Qplus_le_compat; [exact H0 | discriminate].
  - assert (H : (Qfloor (x + (1 # 2)) < n)%Z).
    { rewrite Zlt_Qlt. apply Qle_lt_trans with (x + (1 # 2)).
      - apply Qfloor_le.
      - apply Qle_lt_trans with (inject_Z (n - 1) + (1 # 2)).
        + apply Qplus_le_compat; [exact H1 | apply Qle_refl].
        + unfold Z.sub. rewrite inject_Z_plus. 
          rewrite <- Qplus_assoc. rewrite <- (Qplus_0_r (inject_Z n)) at 2.
          apply Qplus_lt_r. reflexivity. }
    lia.
Qed.
End ValueMapper.




(** ** Single handlers *)

(** C10: a mouse-down with another button than the primary one, or one that
    arrives while [isSliding] is set, changes nothing: the state, the
    document's listeners, the timers and the log of callbacks are those of
    before, and [preventDefault] is not even called. *)
Theorem handleMouseDown_ignored (button : Z) (clientX : Q) (w : World) :
  button <> 0 \/ isSliding (state w) = true ->
  handleMouseDown button clientX w = w /\
  dispatch (MouseDown button clientX) w = w.
Proof.
  intros H.
  assert (E : handleMouseDown button clientX w = w).
  { unfold handleMouseDown. destruct (disabled (props w)); [reflexivity | ].
    destruct H as [H | H].
    - apply Z.eqb_neq in H. rewrite H. reflexivity.
    - rewrite H, orb_true_r. reflexivity. }
  split; [exact E | ].
  unfold dispatch. rewrite E. destruct (alive w); reflexivity.
Qed.

Definition example_props : Props :=
  mkProps false (JInt 5) (Some 2) (Some 8) true true 10.

Definition example_rect : Rect := mkRect 0 (100 # 1).

(** C10, the witness: the secondary button on a fresh slider. *)
Lemma handleMouseDown_ignored_witness :
  let w := mount example_props example_rect 0 in
  handleMouseDown 2 (30 # 1) w = w /\ dispatch (MouseDown 2 (30 # 1)) w = w.
Proof.
  intro w. apply (handleMouseDown_ignored 2 (30 # 1) w).
  left. lia.
Defined.

Local Open Scope string_scope.

(** C2, on the code: [calculateValue] returns [null] without an element, but
    the move handlers do not ignore it. After an unmount in the middle of a
    drag the document still holds [handleMouseMove]; the next move calls
    [onSlide(null)]. On an instance that is alive with an empty ref the move
    also stores [null] in the state. *)
Theorem move_without_element_reports_null :
  calculateValue example_props None (70 # 1) = JNull /\
  option_map calls
    (run 5 [(0, MouseDown 0 (30 # 1)); (20, Unmount); (30, MouseMove (70 # 1))]
       (mount example_props example_rect 0))
  = Some [(0, OnSlide (JInt 3)); (30, OnSlide JNull)] /\
  (let w := handleMouseMove (70 # 1)
              (set_slider_current None (mount example_props example_rect 0)) in
   st_value (state w) = JNull /\ calls w = [(0, OnSlide JNull)]) /\
  (let w := handleTouchMove (70 # 1)
              (set_slider_current None (mount example_props example_rect 0)) in
   st_value (state w) = JNull /\ calls w = [(0, OnSlide JNull)]).
Proof. vm_compute. repeat split. Qed.

(** C3, on the code: an arrow press at the clamp boundary leaves the value
    where it is and still calls [onSlide]. *)
Theorem arrow_at_boundary_calls_onSlide :
  let p := mkProps false (JInt 8) (Some 2) (Some 8) true true 10 in
  option_map (fun w => (st_value (state w), slides w))
    (run 5 [(0, KeyDown "ArrowRight")] (mount p example_rect 0))
  = Some (JInt 8, [(0, JInt 8)]).
Proof. vm_compute. reflexivity. Qed.

(** C9, on the code: [componentWillUnmount] clears [_timeout] only. The
    timers of the throttled and of the debounced function stay in the queue,
    and [onStop] is called 240ms after the unmount. *)
Theorem unmount_keeps_key_timers :
  let w0 := mount example_props example_rect 0 in
  option_map (fun w => (alive w, map callback (timers w), calls w))
    (run 5 [(0, KeyDown "ArrowRight"); (10, Unmount)] w0)
  = Some (false, [KeyDownExpired; KeyInputExpired], [(0, OnSlide (JInt 6))]) /\
  option_map calls
    (run_until 5 [(0, KeyDown "ArrowRight"); (10, Unmount)] 1000 w0)
  = Some [(0, OnSlide (JInt 6)); (250, OnStop (JInt 6))].
Proof. vm_compute. split; reflexivity. Qed.



Local Close Scope string_scope.

(** Projections of updated worlds. *)
Ltac wsimpl :=
  cbn [props state alive slider_current timeout_ keyDownThrottle
       keyInputDebounce listeners timers next_timer now calls prevented
       set_props set_state set_alive set_slider_current set_timeout_
       set_keyDownThrottle set_keyInputDebounce set_listeners set_timers
       set_now set_calls set_prevented st_value isHovered isSliding
       lastArgs lastCallTime lastInvokeTime timerId
       with_lastArgs with_lastCallTime with_lastInvokeTime with_timerId
       fst snd negb].

Tactic Notation "wsimpl" "in" hyp(H) :=
  cbn [props state alive slider_current timeout_ keyDownThrottle
       keyInputDebounce listeners timers next_timer now calls prevented
       set_props set_state set_alive set_slider_current set_timeout_
       set_keyDownThrottle set_keyInputDebounce set_listeners set_timers
       set_now set_calls set_prevented st_value isHovered isSliding
       lastArgs lastCallTime lastInvokeTime timerId
       with_lastArgs with_lastCallTime with_lastInvokeTime with_timerId
       fst snd negb] in H.

(** Case analysis along the tests of a handler. *)
Ltac handler_cases :=
  repeat (wsimpl;
          match goal with
          | |- context [match timeout_ ?w with _ => _ end] =>
              destruct (timeout_ w) eqn:?
          | |- context [if ?c then _ else _] =>
              lazymatch c with
              | context [if _ then _ else _] => fail
              | context [match _ with _ => _ end] => fail
              | _ => destruct c eqn:?
              end
          end);
  wsimpl.

(** ** The timer queue *)

Lemma earliest_In ts t : earliest ts = Some t -> In t ts.
Proof.
  revert t. induction ts as [|a ts IH]; intros t H; [discriminate | ].
  cbn in H. destruct (earliest ts) as [u|].
  - destruct (deadline u <? deadline a); inversion H; subst.
    + right. apply IH. reflexivity.
    + left. reflexivity.
  - inversion H. left. reflexivity.
Qed.

Lemma earliest_None ts : earliest ts = None -> ts = [].
Proof.
  destruct ts as [|a ts]; [reflexivity | ]. cbn.
  destruct (earliest ts) as [e|]; [ | discriminate].
  destruct (deadline e <? deadline a); discriminate.
Qed.

Lemma earliest_least ts t :
  earliest ts = Some t -> forall u, In u ts -> deadline t <= deadline u.
Proof.
  revert t. induction ts as [|a ts IH]; intros t Ht u Hu; [destruct Hu | ].
  cbn in Ht. destruct (earliest ts) as [e|] eqn:E.
  - pose proof (IH e eq_refl) as IHe.
    destruct (Z.ltb_spec (deadline e) (deadline a)) as [Hlt | Hge];
      injection Ht as <-; destruct Hu as [<- | Hu]; try lia.
    + apply IHe, Hu.
    + specialize (IHe u Hu). lia.
  - injection Ht as <-. destruct Hu as [<- | Hu]; [lia | ].
    apply earliest_None in E. subst ts. destruct Hu.
Qed.

Lemma next_due_Some T w t :
  next_due T w = Some t ->
  In t (timers w) /\ deadline t <= T /\
  forall u, In u (timers w) -> deadline t <= deadline u.
Proof.
  unfold next_due. destruct (earliest (timers w)) as [e|] eqn:E; [ | discriminate].
  destruct (Z.leb_spec (deadline e) T) as [Hle | Hgt]; [ | discriminate].
  intro Ht. injection Ht as <-. split; [ | split].
  - apply earliest_In, E.
  - exact Hle.
  - apply earliest_least, E.
Qed.


Lemma filter_length_le {A} (f : A -> bool) l :
  (List.length (filter f l) <= List.length l)%nat.
Proof.
  induction l as [|a l IH]; cbn; [lia | ]. destruct (f a); cbn; lia.
Qed.

Lemma filter_length_lt {A} (f : A -> bool) l a :
  In a l -> f a = false -> (List.length (filter f l) < List.length l)%nat.
Proof.
  induction l as [|b l IH]; intros Hin Hf; [destruct Hin | ].
  cbn. destruct Hin as [-> | Hin].
  - rewrite Hf. pose proof (filter_length_le f l). lia.
  - specialize (IH Hin Hf). destruct (f b); cbn; lia.
Qed.

(** ** Drag sessions *)

(** Only timers of the tooltip are pending: no key input is in flight. *)
Definition popover_only (w : World) : Prop :=
  forall t, In t (timers w) -> exists b, callback t = PopoverTimeout b.

(** What a tooltip timer leaves alone when it fires. *)
Definition same_interaction (w w' : World) : Prop :=
  props w' = props w /\ alive w' = alive w /\
  slider_current w' = slider_current w /\
  st_value (state w') = st_value (state w) /\
  isSliding (state w') = isSliding (state w) /\
  listeners w' = listeners w /\ calls w' = calls w /\
  keyDownThrottle w' = keyDownThrottle w /\
  keyInputDebounce w' = keyInputDebounce w.

Lemma same_interaction_refl w : same_interaction w w.
Proof. repeat split. Qed.

Lemma same_interaction_trans w1 w2 w3 :
  same_interaction w1 w2 -> same_interaction w2 w3 -> same_interaction w1 w3.
Proof.
  unfold same_interaction. intros H1 H2.
  decompose [and] H1. decompose [and] H2. repeat split; congruence.
Qed.

Lemma fire_popover (t : Timer) (w : World) b :
  In t (timers w) -> callback t = PopoverTimeout b ->
  same_interaction w (fire t w) /\
  (List.length (timers (fire t w)) < List.length (timers w))%nat /\
  (forall u, In u (timers (fire t w)) -> In u (timers w)).
Proof.
  intros Hin Hcb. unfold fire. rewrite Hcb. cbn [run_callback].
  unfold popoverTimeout, setState, clearTimeout. destruct w; cbn in *.
  destruct alive0; cbn; (split; [repeat split | split]).
  1,3: apply filter_length_lt with t; [exact Hin | ];
       rewrite Nat.eqb_refl; reflexivity.
  all: intros u Hu; apply filter_In in Hu; tauto.
Qed.

Lemma advance_popover_only (T : Z) (fuel : nat) (w : World) :
  popover_only w -> (List.length (timers w) <= fuel)%nat ->
  exists w', advance fuel T w = Some w' /\ same_interaction w w' /\
             popover_only w' /\
             (List.length (timers w') <= List.length (timers w))%nat.
Proof.
  revert w. induction fuel as [|fuel IH]; intros w Hp Hlen;
    cbn [advance]; destruct (next_due T w) as [t|] eqn:E.
  - apply next_due_Some in E. destruct E as (Hin & _).
    destruct (timers w); [destruct Hin | cbn in Hlen; lia].
  - exists (set_now (Z.max (now w) T) w).
    split; [reflexivity | ]. split; [repeat split | ].
    split; [exact Hp | cbn; lia].
  - apply next_due_Some in E. destruct E as (Hin & _ & _).
    destruct (Hp t Hin) as [b Hb].
    destruct (fire_popover t w b Hin Hb) as (Hs & Hl & Hsub).
    destruct (IH (fire t w)) as (w' & Hadv & Hs' & Hp' & Hl').
    + intros u Hu. apply Hp, Hsub, Hu.
    + lia.
    + exists w'. split; [exact Hadv | ].
      split; [eapply same_interaction_trans; eassumption | ].
      split; [exact Hp' | lia].
  - exists (set_now (Z.max (now w) T) w).
    split; [reflexivity | ]. split; [repeat split | ].
    split; [exact Hp | cbn; lia].
Qed.

Inductive Pointer : Type := Mouse | Touch.


Definition move_of (k : Pointer) (clientX : Q) : Event :=
  match k with Mouse => MouseMove clientX | Touch => TouchMove clientX end.

Definition end_of (k : Pointer) : Event :=
  match k with Mouse => MouseUp | Touch => TouchEnd end.

Definition move_listener (k : Pointer) : Listener :=
  match k with Mouse => Lmousemove | Touch => Ltouchmove end.

Definition end_listener (k : Pointer) : Listener :=
  match k with Mouse => Lmouseup | Touch => Ltouchend end.




Lemma registered_add l w : registered l (addEventListener l w) = true.
Proof.
  unfold addEventListener, registered.
  destruct (existsb (Listener_eqb l) (listeners w)) eqn:E; [exact E | ].
  destruct w; cbn in *. rewrite existsb_app, E. cbn.
  destruct l; reflexivity.
Qed.

Lemma registered_add_other l l' w :
  registered l w = true -> registered l (addEventListener l' w) = true.
Proof.
  unfold addEventListener, registered. intro H.
  destruct (existsb (Listener_eqb l') (listeners w)); [exact H | ].
  destruct w; cbn in *. rewrite existsb_app, H. reflexivity.
Qed.










(** ** The sliding flag *)

(** What separates a drag from the rest: the flag, the listeners, and
    whether the instance is alive. *)
Definition same_drag (w w' : World) : Prop :=
  alive w' = alive w /\ isSliding (state w') = isSliding (state w) /\
  listeners w' = listeners w.

Lemma same_drag_refl w : same_drag w w.
Proof. repeat split. Qed.

Lemma same_drag_trans w1 w2 w3 :
  same_drag w1 w2 -> same_drag w2 w3 -> same_drag w1 w3.
Proof.
  unfold same_drag. intros (A1 & B1 & C1) (A2 & B2 & C2).
  repeat split; congruence.
Qed.

(** The functions of [debounce] keep every relation between worlds that is
    kept by what they are built from. *)
Section DebounceFrame.
Context {A : Type}.
Variable o : DebounceOptions.
Variable get : World -> Debounced A.
Variable put : Debounced A -> Handler.
Variable func : A -> Handler.
Variable expired : TimerCb.
Variable R : World -> World -> Prop.
Hypothesis R_refl : forall w, R w w.
Hypothesis R_trans : forall w1 w2 w3, R w1 w2 -> R w2 w3 -> R w1 w3.
Hypothesis R_put : forall d w, R w (put d w).
Hypothesis R_setTimeout : forall cb delay w, R w (snd (setTimeout cb delay w)).
Hypothesis R_func : forall a w, R w (func a w).

Lemma R_modify f w : R w (modify get put f w).
Proof. apply R_put. Qed.

Lemma R_invokeFunc time w : R w (invokeFunc get put func time w).
Proof.
  unfold invokeFunc.
  destruct (lastArgs (get w));
    do 2 (eapply R_trans; [apply R_modify | ]);
    [apply R_func | apply R_refl].
Qed.

Lemma R_timer_then cb delay (k : nat -> Handler) w :
  (forall id w', R w' (k id w')) ->
  R w (let (id, w') := setTimeout cb delay w in k id w').
Proof.
  intro Hk. pose proof (R_setTimeout cb delay w) as H.
  destruct (setTimeout cb delay w) as [id w']. cbn in H.
  eapply R_trans; [exact H | apply Hk].
Qed.

Lemma R_leadingEdge time w : R w (leadingEdge o get put func expired time w).
Proof.
  unfold leadingEdge. eapply R_trans; [apply R_modify | ].
  apply R_timer_then. intros id w'.
  eapply R_trans; [apply R_modify | ].
  destruct (leading o); [apply R_invokeFunc | apply R_refl].
Qed.

Lemma R_trailingEdge time w : R w (trailingEdge o get put func time w).
Proof.
  unfold trailingEdge. eapply R_trans; [apply R_modify | ].
  destruct (lastArgs _); [destruct (trailing o) | ];
    first [apply R_invokeFunc | apply R_modify].
Qed.

Lemma R_timerExpired w : R w (timerExpired o get put func expired w).
Proof.
  unfold timerExpired. destruct (shouldInvoke o _ _).
  - apply R_trailingEdge.
  - apply R_timer_then. intros. apply R_modify.
Qed.

Lemma R_debounced args w : R w (debounced o get put func expired args w).
Proof.
  unfold debounced.
  set (w2 := modify get put (with_lastCallTime (Some (now w)))
               (modify get put (with_lastArgs (Some args)) w)).
  assert (H2 : R w w2)
    by (eapply R_trans; apply R_modify).
  clearbody w2. apply R_trans with w2; [exact H2 | ].
  assert (L : R w2 match timerId (get w2) with
                   | Some _ => w2
                   | None =>
                       let (id, w0) := setTimeout expired (wait o) w2 in
                       modify get put (with_timerId (Some id)) w0
                   end).
  { destruct (timerId (get w2)); [apply R_refl | ].
    apply R_timer_then. intros. apply R_modify. }
  destruct (shouldInvoke o (now w) (get w)); [ | exact L].
  destruct (timerId (get w2)) eqn:E.
  - destruct (maxing o); [ | exact L].
    apply R_timer_then. intros.
    eapply R_trans; [apply R_modify | apply R_invokeFunc].
  - apply R_leadingEdge.
Qed.
End DebounceFrame.

Lemma same_drag_setTimeout cb delay w : same_drag w (snd (setTimeout cb delay w)).
Proof. repeat split. Qed.

Lemma same_drag_clearTimeout id w : same_drag w (clearTimeout id w).
Proof. repeat split. Qed.

Lemma same_drag_invoke b c w : same_drag w (invoke b c w).
Proof. unfold invoke. destruct b; repeat split. Qed.

Lemma same_drag_setState update callback w :
  (forall s, isSliding (update s) = isSliding s) ->
  (forall w', same_drag w' (callback w')) ->
  same_drag w (setState update callback w).
Proof.
  intros Hu Hc. unfold setState. destruct (alive w) eqn:E; [ | apply same_drag_refl].
  eapply same_drag_trans; [ | apply Hc].
  unfold same_drag. wsimpl. rewrite Hu. repeat split.
Qed.

Lemma same_drag_handleTogglePopover isOpen delay w :
  same_drag w (handleTogglePopover isOpen delay w).
Proof.
  unfold handleTogglePopover.
  destruct (negb isOpen), (timeout_ w); repeat split.
Qed.

Lemma same_drag_popoverTimeout isOpen w : same_drag w (popoverTimeout isOpen w).
Proof.
  unfold popoverTimeout, setState, done. destruct (alive w) eqn:E;
    unfold same_drag; wsimpl; repeat split.
Qed.

Lemma same_drag_keyInput_func u w :
  same_drag w (handleDebouncedKeyInput_func u w).
Proof.
  unfold handleDebouncedKeyInput_func.
  eapply same_drag_trans;
    [apply same_drag_handleTogglePopover | apply same_drag_invoke].
Qed.

Lemma same_drag_handleDebouncedKeyInput w :
  same_drag w (handleDebouncedKeyInput w).
Proof.
  unfold handleDebouncedKeyInput. apply R_debounced;
    auto using same_drag_refl, same_drag_setTimeout, same_drag_keyInput_func.
  - apply same_drag_trans.
  - repeat split.
Qed.

Lemma same_drag_keyInputExpired w : same_drag w (keyInputExpired w).
Proof.
  unfold keyInputExpired. apply R_timerExpired;
    auto using same_drag_refl, same_drag_setTimeout, same_drag_keyInput_func.
  - apply same_drag_trans.
  - repeat split.
Qed.

Lemma same_drag_keyDown_func key w :
  same_drag w (handleThrottledKeyDown_func key w).
Proof.
  unfold handleThrottledKeyDown_func.
  destruct (disabled (props w)).
  - apply same_drag_setState; [reflexivity | ].
    intro. apply same_drag_handleTogglePopover.
  - repeat match goal with
           | |- context [if (?a || ?b)%bool then _ else _] =>
               destruct (a || b)%bool
           end;
      try apply same_drag_refl;
      (apply same_drag_setState; [reflexivity | ]; intro w';
       eapply same_drag_trans;
       [apply same_drag_handleDebouncedKeyInput | apply same_drag_invoke]).
Qed.

Lemma same_drag_handleThrottledKeyDown key w :
  same_drag w (handleThrottledKeyDown key w).
Proof.
  unfold handleThrottledKeyDown. apply R_debounced;
    auto using same_drag_refl, same_drag_setTimeout, same_drag_keyDown_func.
  - apply same_drag_trans.
  - repeat split.
Qed.

Lemma same_drag_keyDownExpired w : same_drag w (keyDownExpired w).
Proof.
  unfold keyDownExpired. apply R_timerExpired;
    auto using same_drag_refl, same_drag_setTimeout, same_drag_keyDown_func.
  - apply same_drag_trans.
  - repeat split.
Qed.

Lemma same_drag_handleKeyDown key w : same_drag w (handleKeyDown key w).
Proof.
  unfold handleKeyDown. destruct (_ || _)%bool; [apply same_drag_refl | ].
  eapply same_drag_trans; [ | apply same_drag_handleThrottledKeyDown].
  repeat split.
Qed.

(** A timer that fires never touches the flag or the listeners. *)
Lemma same_drag_fire t w : same_drag w (fire t w).
Proof.
  unfold fire.
  eapply same_drag_trans with (w2 := set_now _ (clearTimeout (timer_id t) w));
    [repeat split | ].
  destruct (callback t); cbn [run_callback].
  - apply same_drag_popoverTimeout.
  - apply same_drag_keyInputExpired.
  - apply same_drag_keyDownExpired.
Qed.

Lemma same_drag_move_handlers clientX w :
  same_drag w (handleMouseMove clientX w) /\
  same_drag w (handleTouchMove clientX w).
Proof.
  unfold handleMouseMove, handleTouchMove.
  destruct (disabled (props w)); [split; apply same_drag_refl | ].
  split;
    (eapply same_drag_trans with (w2 := preventDefault w); [repeat split | ];
     destruct (strict_neq _ _); [ | apply same_drag_refl];
     eapply same_drag_trans; [apply same_drag_invoke | ];
     apply same_drag_setState; [reflexivity | intro; apply same_drag_refl]).
Qed.

(** The listeners of a drag, mouse or touch, are on the document. *)
Definition drag_listeners (w : World) : bool :=
  (registered Lmousemove w && registered Lmouseup w)
  || (registered Ltouchmove w && registered Ltouchend w).

Definition is_start (e : Event) : bool :=
  match e with
  | MouseDown _ _ | TouchStart _ => true
  | _ => false
  end.

(** What can happen to an instance: an event, a pending timer that fires,
    time that passes. *)
Inductive Action : Type :=
| Dispatch (e : Event)
| Fire (t : Timer)
| Tick (T : Z).

Definition act (a : Action) : Handler :=
  match a with
  | Dispatch e => dispatch e
  | Fire t => fire t
  | Tick T => fun w => set_now (Z.max (now w) T) w
  end.

Definition acts (l : list Action) (w : World) : World :=
  fold_left (fun w a => act a w) l w.

Definition reachable (w : World) : Prop :=
  exists p r t0 l, w = acts l (mount p r t0).

Lemma acts_snoc l a w : acts (l ++ [a]) w = act a (acts l w).
Proof. unfold acts. rewrite fold_left_app. reflexivity. Qed.

(** An end event that reaches an enabled, mounted widget. *)
Lemma end_enabled (k : Pointer) (w : World) :
  alive w = true -> disabled (props w) = false ->
  registered (end_listener k) w = true ->
  isSliding (state (dispatch (end_of k) w)) = false /\
  registered (move_listener k) (dispatch (end_of k) w) = false /\
  registered (end_listener k) (dispatch (end_of k) w) = false.
Proof.
  intros Ha Hd He.
  assert (F : forall (l : Listener) (ls : list Listener),
             existsb (Listener_eqb l)
               (filter (fun x => negb (Listener_eqb l x)) ls) = false).
  { intros l ls. induction ls as [|a ls IH]; [reflexivity | ].
    cbn. destruct (Listener_eqb l a) eqn:E; cbn; [exact IH | ].
    rewrite E. exact IH. }
  assert (G : forall (l l' : Listener) (ls : list Listener),
             existsb (Listener_eqb l) ls = false ->
             existsb (Listener_eqb l)
               (filter (fun x => negb (Listener_eqb l' x)) ls) = false).
  { intros l l' ls. induction ls as [|a ls IH]; [reflexivity | ].
    cbn. intro H. apply orb_false_elim in H. destruct H as [H1 H2].
    destruct (Listener_eqb l' a); cbn; [auto | ]. rewrite H1. auto. }
  destruct k; cbn [dispatch end_of]; cbn [end_listener] in He; rewrite He;
    unfold handleMouseUp, handleTouchEnd; rewrite Hd;
    unfold handleTogglePopover, setState, invoke, done, removeEventListener,
      preventDefault, registered; wsimpl;
    destruct (onStop (props w)); wsimpl; rewrite Ha; wsimpl;
    destruct (timeout_ w); unfold clearTimeout, setTimeout; wsimpl;
    cbn [move_listener end_listener];
    (split; [reflexivity | split; [apply G, F | apply F]]).
Qed.

(** An end event while [disabled] is set does nothing at all. *)
Lemma end_disabled (k : Pointer) (w : World) :
  disabled (props w) = true -> dispatch (end_of k) w = w.
Proof.
  intro Hd. destruct k; cbn [dispatch end_of];
    unfold handleMouseUp, handleTouchEnd; rewrite Hd;
    match goal with |- (if ?c then _ else _) = _ => destruct c end;
    reflexivity.
Qed.

Lemma handleMouseDown_noop (button : Z) (clientX : Q) (w : World) :
  button <> 0 \/ isSliding (state w) = true ->
  handleMouseDown button clientX w = w.
Proof.
  intro H. unfold handleMouseDown.
  destruct (disabled (props w)); [reflexivity | ].
  destruct H as [H | H].
  - apply Z.eqb_neq in H. rewrite H. reflexivity.
  - rewrite H, orb_true_r. reflexivity.
Qed.

Lemma listeners_setState update w :
  listeners (setState update done w) = listeners w.
Proof. unfold setState, done. destruct (alive w); reflexivity. Qed.

Lemma start_prefix_registered (l1 l2 : Listener) (w : World) :
  let w1 := setState (fun s => mkState (st_value s) true true) done
              (addEventListener l2 (addEventListener l1 (preventDefault w))) in
  registered l1 w1 = true /\ registered l2 w1 = true.
Proof.
  intro w1. unfold registered, w1. rewrite listeners_setState. split.
  - apply (registered_add_other l1 l2), registered_add.
  - apply (registered_add l2).
Qed.

(** After an accepted start the listeners of the drag are registered. *)
Lemma start_registers (e : Event) (w : World) :
  is_start e = true -> alive w = true ->
  dispatch e w = w \/ drag_listeners (dispatch e w) = true.
Proof.
  intros Hs Ha. destruct e; try discriminate Hs; cbn [dispatch]; rewrite Ha.
  - unfold handleMouseDown. destruct (disabled (props w)); [left; reflexivity | ].
    destruct (negb (button =? 0) || isSliding (state w))%bool;
      [left; reflexivity | right].
    destruct (start_prefix_registered Lmousemove Lmouseup w) as [R1 R2].
    match goal with |- drag_listeners (handleMouseMove _ ?w1) = true =>
      destruct (same_drag_move_handlers clientX w1) as [(_ & _ & L) _]
    end.
    unfold drag_listeners, registered in *. rewrite L, R1, R2. reflexivity.
  - unfold handleTouchStart. destruct (disabled (props w)); [left; reflexivity | ].
    right.
    destruct (start_prefix_registered Ltouchmove Ltouchend w) as [R1 R2].
    match goal with |- drag_listeners (handleTouchMove _ ?w1) = true =>
      destruct (same_drag_move_handlers clientX w1) as [_ (_ & _ & L)]
    end.
    unfold drag_listeners, registered in *. rewrite L, R1, R2.
    apply orb_true_r.
Qed.

Lemma same_drag_receiveProps nextProps w : same_drag w (receiveProps nextProps w).
Proof.
  unfold receiveProps, componentWillReceiveProps.
  eapply same_drag_trans with (w2 := if strict_neq _ _ then _ else w);
    [ | repeat split].
  destruct (strict_neq _ _); [ | apply same_drag_refl].
  apply same_drag_setState; [reflexivity | intro; apply same_drag_refl].
Qed.

Lemma unmount_dead w :
  alive (unmount w) = false /\ state (unmount w) = state w.
Proof.
  unfold unmount, componentWillUnmount. destruct (timeout_ w); split; reflexivity.
Qed.

Lemma end_not_alive (k : Pointer) (w : World) :
  alive w = false ->
  alive (dispatch (end_of k) w) = false /\
  state (dispatch (end_of k) w) = state w.
Proof.
  intro Ha.
  destruct k; cbn [dispatch end_of];
    unfold handleMouseUp, handleTouchEnd, handleTogglePopover, setState,
      invoke, done, removeEventListener, preventDefault, clearTimeout,
      setTimeout;
    handler_cases; split; congruence.
Qed.

(** What an event can do to the flag and to the listeners. *)
Lemma dispatch_cases (e : Event) (w : World) :
  same_drag w (dispatch e w)
  \/ (is_start e = true /\ alive w = true /\ disabled (props w) = false /\
      drag_listeners (dispatch e w) = true)
  \/ isSliding (state (dispatch e w)) = false
  \/ (alive (dispatch e w) = false /\
      isSliding (state (dispatch e w)) = isSliding (state w)).
Proof.
  destruct e.
  - destruct (alive w) eqn:Ha;
      [ | left; cbn [dispatch]; rewrite Ha; apply same_drag_refl].
    destruct (disabled (props w)) eqn:Hd.
    + left. cbn [dispatch]. rewrite Ha. unfold handleMouseDown. rewrite Hd.
      apply same_drag_refl.
    + destruct (start_registers (MouseDown button clientX) w eq_refl Ha) as [E | L].
      * left. rewrite E. apply same_drag_refl.
      * right. left. repeat split; assumption.
  - left. cbn [dispatch]. destruct (registered _ _); [ | apply same_drag_refl].
    apply same_drag_move_handlers.
  - destruct (alive w) eqn:Ha.
    + destruct (registered Lmouseup w) eqn:Hr;
        [ | left; cbn [dispatch]; rewrite Hr; apply same_drag_refl].
      destruct (disabled (props w)) eqn:Hd.
      * left. pose proof (end_disabled Mouse w Hd) as E. cbn [end_of] in E.
        rewrite E. apply same_drag_refl.
      * right. right. left.
        destruct (end_enabled Mouse w Ha Hd Hr) as [E _]. exact E.
    + right. right. right.
      destruct (end_not_alive Mouse w Ha) as [A B]. cbn [end_of] in A, B.
      rewrite A, B. split; reflexivity.
  - destruct (alive w) eqn:Ha;
      [ | left; cbn [dispatch]; rewrite Ha; apply same_drag_refl].
    destruct (disabled (props w)) eqn:Hd.
    + left. cbn [dispatch]. rewrite Ha. unfold handleTouchStart. rewrite Hd.
      apply same_drag_refl.
    + destruct (start_registers (TouchStart clientX) w eq_refl Ha) as [E | L].
      * left. rewrite E. apply same_drag_refl.
      * right. left. repeat split; assumption.
  - left. cbn [dispatch]. destruct (registered _ _); [ | apply same_drag_refl].
    apply same_drag_move_handlers.
  - destruct (alive w) eqn:Ha.
    + destruct (registered Ltouchend w) eqn:Hr;
        [ | left; cbn [dispatch]; rewrite Hr; apply same_drag_refl].
      destruct (disabled (props w)) eqn:Hd.
      * left. pose proof (end_disabled Touch w Hd) as E. cbn [end_of] in E.
        rewrite E. apply same_drag_refl.
      * right. right. left.
        destruct (end_enabled Touch w Ha Hd Hr) as [E _]. exact E.
    + right. right. right.
      destruct (end_not_alive Touch w Ha) as [A B]. cbn [end_of] in A, B.
      rewrite A, B. split; reflexivity.
  - left. cbn [dispatch]. destruct (alive w); [ | apply same_drag_refl].
    apply same_drag_handleKeyDown.
  - left. cbn [dispatch]. destruct (alive w); [ | apply same_drag_refl].
    unfold handleMouseEnter.
    eapply same_drag_trans; [ | apply same_drag_handleTogglePopover].
    repeat split.
  - left. cbn [dispatch]. destruct (alive w); [ | apply same_drag_refl].
    unfold handleMouseLeave.
    eapply same_drag_trans; [ | apply same_drag_handleTogglePopover].
    repeat split.
  - left. cbn [dispatch]. destruct (alive w); [ | apply same_drag_refl].
    apply same_drag_receiveProps.
  - cbn [dispatch]. destruct (alive w) eqn:Ha; [ | left; apply same_drag_refl].
    right. right. right. destruct (unmount_dead w) as [A B].
    rewrite A, B. split; reflexivity.
Qed.

Lemma act_cases (a : Action) (w : World) :
  same_drag w (act a w)
  \/ (exists e, a = Dispatch e /\ is_start e = true /\ alive w = true /\
                disabled (props w) = false /\ drag_listeners (act a w) = true)
  \/ isSliding (state (act a w)) = false
  \/ (alive (act a w) = false /\
      isSliding (state (act a w)) = isSliding (state w)).
Proof.
  destruct a as [e | t | T]; cbn [act].
  - destruct (dispatch_cases e w) as [H | [H | [H | H]]]; auto.
    right. left. exists e. tauto.
  - left. apply same_drag_fire.
  - left. repeat split.
Qed.

(** While the flag is set on a mounted instance, the listeners of a drag are
    on the document. *)
Definition sliding_inv (w : World) : Prop :=
  alive w = true -> isSliding (state w) = true -> drag_listeners w = true.

Lemma sliding_inv_acts l w : sliding_inv w -> sliding_inv (acts l w).
Proof.
  induction l as [|a l IH] using rev_ind; intro Hw; [exact Hw | ].
  rewrite acts_snoc. specialize (IH Hw).
  destruct (act_cases a (acts l w)) as [(A & B & C) | [(e & _ & _ & _ & _ & L) | [H | [H _]]]];
    intros Ha Hs.
  - unfold drag_listeners, registered in *. rewrite C. apply IH; congruence.
  - exact L.
  - congruence.
  - congruence.
Qed.

(** The flag was raised by a start event and has been up since. *)
Lemma sliding_since_start l w :
  isSliding (state w) = false -> isSliding (state (acts l w)) = true ->
  exists l1 e l2,
    l = l1 ++ Dispatch e :: l2 /\ is_start e = true /\
    isSliding (state (acts l1 w)) = false /\
    disabled (props (acts l1 w)) = false /\
    forall n, isSliding (state (acts (l1 ++ Dispatch e :: firstn n l2) w)) = true.
Proof.
  intro Hw. induction l as [|a l IH] using rev_ind; intro Hs.
  - cbn in Hs. congruence.
  - rewrite acts_snoc in Hs.
    destruct (isSliding (state (acts l w))) eqn:Hl.
    + destruct (IH eq_refl) as (l1 & e & l2 & -> & He & Hb & Hd & Hall).
      exists l1, e, (l2 ++ [a]). rewrite <- app_assoc. cbn [app].
      repeat split; try assumption.
      intro n. destruct (Nat.le_gt_cases n (List.length l2)) as [Hn | Hn].
      * rewrite firstn_app.
        replace (n - List.length l2)%nat with 0%nat by lia.
        cbn [firstn]. rewrite app_nil_r. apply Hall.
      * rewrite firstn_all2 by (rewrite length_app; cbn; lia).
        change (Dispatch e :: l2 ++ [a]) with ((Dispatch e :: l2) ++ [a]).
        rewrite app_assoc, acts_snoc. exact Hs.
    + destruct (act_cases a (acts l w))
        as [(_ & B & _) | [(e & -> & He & _ & Hd & _) | [H | [_ H]]]];
        try congruence.
      exists l, e, []. repeat split; try assumption.
      intro n. destruct n; cbn [firstn]; rewrite acts_snoc; exact Hs.
Qed.

(** C8, as amended: [isSliding] is raised only by a start event that an
    enabled widget handles, it stays up from that event on, and while it is
    up on a mounted instance the listeners of the drag are registered; an end
    event handled while the widget is enabled lowers it and removes the
    listeners; an end event that arrives while [disabled] is set changes
    nothing; a mouse-down while the flag is up changes nothing, so a mouse
    drag is not started twice. *)
Theorem sliding_only_during_drag :
  (forall w, reachable w ->
     alive w = true -> isSliding (state w) = true -> drag_listeners w = true) /\
  (forall p r t0 l,
     isSliding (state (acts l (mount p r t0))) = true ->
     exists l1 e l2,
       l = l1 ++ Dispatch e :: l2 /\ is_start e = true /\
       isSliding (state (acts l1 (mount p r t0))) = false /\
       disabled (props (acts l1 (mount p r t0))) = false /\
       forall n,
         isSliding
           (state (acts (l1 ++ Dispatch e :: firstn n l2) (mount p r t0)))
         = true) /\
  (forall k w,
     alive w = true -> disabled (props w) = false ->
     registered (end_listener k) w = true ->
     isSliding (state (dispatch (end_of k) w)) = false /\
     registered (move_listener k) (dispatch (end_of k) w) = false /\
     registered (end_listener k) (dispatch (end_of k) w) = false) /\
  (forall k w, disabled (props w) = true -> dispatch (end_of k) w = w) /\
  (forall button clientX w,
     isSliding (state w) = true -> dispatch (MouseDown button clientX) w = w).
Proof.
  split; [ | split; [ | split; [ | split]]].
  - intros w (p & r & t0 & l & ->). apply sliding_inv_acts.
    intros _ H. discriminate H.
  - intros p r t0 l H. apply sliding_since_start; [reflexivity | exact H].
  - apply end_enabled.
  - apply end_disabled.
  - intros button clientX w H. cbn [dispatch].
    rewrite handleMouseDown_noop by (right; exact H).
    destruct (alive w); reflexivity.
Qed.

Definition disabled_props : Props :=
  mkProps true (JInt 5) (Some 2) (Some 8) true true 10.

(** C8, the witness: the mouse-up that ends a drag on the example slider. *)
Lemma sliding_only_during_drag_witness :
  let w := dispatch (MouseDown 0 (30 # 1)) (mount example_props example_rect 0) in
  isSliding (state w) = true /\
  isSliding (state (dispatch (end_of Mouse) w)) = false /\
  registered (move_listener Mouse) (dispatch (end_of Mouse) w) = false /\
  registered (end_listener Mouse) (dispatch (end_of Mouse) w) = false.
Proof.
  intro w. split; [reflexivity | ].
  apply (proj1 (proj2 (proj2 sliding_only_during_drag)) Mouse w);
    reflexivity.
Defined.

(** C8 as stated fails: when [disabled] is set during a drag, the mouse-up
    that ends the drag returns at once; [isSliding] stays up and the
    listeners stay on the document. *)
Lemma sliding_stuck_when_disabled :
  let w := acts [Dispatch (MouseDown 0 (30 # 1));
                 Dispatch (ReceiveProps disabled_props);
                 Dispatch MouseUp]
             (mount example_props example_rect 0) in
  isSliding (state w) = true /\ registered Lmouseup w = true /\
  alive w = true.
Proof. vm_compute. repeat split. Qed.

(** ** Keyboard *)

Local Open Scope string_scope.







Local Close Scope string_scope.







Local Open Scope string_scope.



Local Close Scope string_scope.

(** ** A burst of arrow keys *)





(** The queue after a timer has left it. *)
Definition without (id : nat) (ts : list Timer) : list Timer :=
  filter (fun t => negb (Nat.eqb (timer_id t) id)) ts.

Lemma In_without id ts u :
  In u (without id ts) <-> In u ts /\ timer_id u <> id.
Proof.
  unfold without. rewrite filter_In. split; intros [H1 H2]; split; auto.
  - intro E. rewrite E, Nat.eqb_refl in H2. discriminate.
  - apply Nat.eqb_neq in H2. rewrite H2. reflexivity.
Qed.

Lemma NoDup_without id ts :
  NoDup (map timer_id ts) -> NoDup (map timer_id (without id ts)).
Proof.
  induction ts as [|a ts IH]; cbn; intro H; [constructor | ].
  inversion H as [|x l Hn Hd]; subst.
  destruct (negb (timer_id a =? id)%nat); cbn; [ | auto].
  constructor; [ | auto].
  intro Hin. apply Hn. apply in_map_iff in Hin.
  destruct Hin as (u & Hu & Hin). apply In_without in Hin.
  apply in_map_iff. exists u. tauto.
Qed.


Lemma NoDup_snoc_fresh ts (n : nat) d cb :
  NoDup (map timer_id ts) -> (forall t, In t ts -> (timer_id t < n)%nat) ->
  NoDup (map timer_id (ts ++ [mkTimer n d cb])).
Proof.
  intros Hn Hf. rewrite map_app. cbn. apply NoDup_app; [exact Hn | | ].
  - constructor; [intros [] | constructor].
  - intros x Hx [<- | []]. apply in_map_iff in Hx.
    destruct Hx as (t & E & Ht). specialize (Hf t Ht). cbn in E. lia.
Qed.

Lemma stops_app w l :
  stops (set_calls (calls w ++ l) w) =
  stops w ++ flat_map (fun c => match snd c with
                                | OnStop v => [(fst c, v)]
                                | OnSlide _ => []
                                end) l.
Proof. unfold stops. wsimpl. apply flat_map_app. Qed.

Lemma slides_app w l :
  slides (set_calls (calls w ++ l) w) =
  slides w ++ flat_map (fun c => match snd c with
                                 | OnSlide v => [(fst c, v)]
                                 | OnStop _ => []
                                 end) l.
Proof. unfold slides. wsimpl. apply flat_map_app. Qed.







(** The world in which the function of a timer runs: the timer is out of the
    queue and the clock is at its deadline. *)
Definition popped (t : Timer) : Handler := fun w =>
  set_now (Z.max (now w) (deadline t)) (clearTimeout (timer_id t) w).

Lemma fire_popped t w : fire t w = run_callback (callback t) (popped t w).
Proof. reflexivity. Qed.





























(** A call of the throttled handler on its leading edge. *)
Lemma throttled_leading key w :
  shouldInvoke (throttle_options 50) (now w) (keyDownThrottle w) = true ->
  timerId (keyDownThrottle w) = None ->
  handleThrottledKeyDown key w
  = invokeFunc keyDownThrottle set_keyDownThrottle handleThrottledKeyDown_func
      (now w)
      (set_keyDownThrottle
         (mkDebounced (Some key) (Some (now w)) (now w) (Some (next_timer w)))
         (set_timers
            (timers w ++ [mkTimer (next_timer w) (now w + 50) KeyDownExpired])
            (S (next_timer w)) w)).
Proof.
  intros Hs Hid. unfold handleThrottledKeyDown, debounced. rewrite Hs.
  unfold modify, with_lastCallTime, with_lastArgs. wsimpl. rewrite Hid.
  unfold leadingEdge, setTimeout, modify, with_timerId, with_lastInvokeTime.
  wsimpl. cbn [throttle_options leading wait].
  change (Z.max 50 0) with 50. reflexivity.
Qed.










Local Open Scope string_scope.


Local Close Scope string_scope.

(** ** Five presses in one throttle window *)




















(** * The rest of the component *)

(** ** Stops and track segments *)

(** [range(from, to)]. [Array(n)] raises a RangeError unless [n] is an
    integer with [0 <= n < 2^32]; [None] is that exception. *)
Definition range (from to : Z) : option (list Z) :=
  let n := to - from in
  if (0 <=? n) && (n <? 2 ^ 32) then
    Some (map (fun num => num + from) (map Z.of_nat (seq 0 (Z.to_nat n))))
  else None.

(** The function made by [memoize] (memoize-one): it keeps the arguments and
    the result of the last call that returned, and answers from them when it
    is called with the same arguments. *)
Definition memoized {B : Type} (calculateValue : Z -> option B)
  (cache : option (Z * B)) (arg : Z) : option B * option (Z * B) :=
  match cache with
  | Some (lastArg, lastResult) =>
      if arg =? lastArg then (Some lastResult, cache)
      else match calculateValue arg with
           | Some result => (Some result, Some (arg, result))
           | None => (None, cache)
           end
  | None =>
      match calculateValue arg with
      | Some result => (Some result, Some (arg, result))
      | None => (None, cache)
      end
  end.

(** [getStops] and [getTrack], made by [createDerivedValue] over
    [this.props.stopCount]; each has a cache of its own. *)
Definition getStops (p : Props) (cache : option (Z * list Z))
  : option (list Z) * option (Z * list Z) :=
  memoized (fun stopCount => range 0 stopCount) cache (stopCount p).

Definition getTrack (p : Props) (cache : option (Z * list Z))
  : option (list Z) * option (Z * list Z) :=
  memoized (fun stopCount => range 0 (stopCount - 1)) cache (stopCount p).

(** A cache that some earlier calls of the derived value have left. *)
Inductive cache_of {B : Type} (f : Z -> option B) : option (Z * B) -> Prop :=
| cache_empty : cache_of f None
| cache_call c arg : cache_of f c -> cache_of f (snd (memoized f c arg)).

Lemma range_spec from to l :
  range from to = Some l ->
  Z.of_nat (List.length l) = to - from /\
  forall i, (i < List.length l)%nat -> nth i l 0 = from + Z.of_nat i.
Proof.
  unfold range. destruct ((0 <=? to - from) && (to - from <? 2 ^ 32)) eqn:E;
    [ | discriminate].
  apply andb_true_iff in E. destruct E as [E1 _]. apply Z.leb_le in E1.
  intro H. injection H as <-. rewrite !length_map, length_seq.
  split; [lia | ]. intros i Hi.
  rewrite (nth_indep _ 0 (0 + from)) by (rewrite !length_map, length_seq; exact Hi).
  rewrite (map_nth (fun num => num + from)).
  rewrite (nth_indep _ 0 (Z.of_nat 0)) by (rewrite length_map, length_seq; exact Hi).
  rewrite (map_nth Z.of_nat), seq_nth by exact Hi. lia.
Qed.

Lemma range_In from to l x :
  range from to = Some l -> (In x l <-> from <= x < to).
Proof.
  unfold range. destruct ((0 <=? to - from) && (to - from <? 2 ^ 32)) eqn:E;
    [ | discriminate].
  apply andb_true_iff in E. destruct E as [E1 _]. apply Z.leb_le in E1.
  intro H. injection H as <-. rewrite in_map_iff. split.
  - intros (y & <- & Hy). apply in_map_iff in Hy. destruct Hy as (n & <- & Hn).
    apply in_seq in Hn. lia.
  - intro Hx. exists (x - from). split; [lia | ].
    apply in_map_iff. exists (Z.to_nat (x - from)). split; [lia | ].
    apply in_seq. lia.
Qed.

Lemma cache_coherent {B : Type} (f : Z -> option B) c :
  cache_of f c -> forall a b, c = Some (a, b) -> f a = Some b.
Proof.
  induction 1 as [|c arg Hc IH]; intros a b E; [discriminate | ].
  unfold memoized in E. destruct c as [[la lr]|].
  - destruct (arg =? la); cbn [snd] in E; [eauto | ].
    destruct (f arg) eqn:Ef; cbn [snd] in E; [ | eauto].
    injection E as <- <-. exact Ef.
  - destruct (f arg) eqn:Ef; cbn [snd] in E; [ | discriminate].
    injection E as <- <-. exact Ef.
Qed.

Lemma memoized_transparent {B : Type} (f : Z -> option B) c arg :
  cache_of f c -> fst (memoized f c arg) = f arg.
Proof.
  intro Hc. unfold memoized. destruct c as [[la lr]|].
  - destruct (Z.eqb_spec arg la) as [-> | Hne]; cbn [fst].
    + symmetry. apply (cache_coherent f _ Hc la lr eq_refl).
    + destruct (f arg); reflexivity.
  - destruct (f arg); reflexivity.
Qed.

(** X1: whatever calls came before, [getStops] gives the stops
    [0 .. stopCount - 1] in order and [getTrack] the segments
    [0 .. stopCount - 2], when [1 <= stopCount < 2^32]; with [stopCount] at
    [0] or below, [getTrack] raises the RangeError of [Array(-1)], so the
    component cannot render. *)
Theorem stops_and_track (p : Props) (cs ct : option (Z * list Z)) :
  cache_of (fun stopCount => range 0 stopCount) cs ->
  cache_of (fun stopCount => range 0 (stopCount - 1)) ct ->
  (1 <= stopCount p < 2 ^ 32 ->
   exists stops track,
     fst (getStops p cs) = Some stops /\ fst (getTrack p ct) = Some track /\
     Z.of_nat (List.length stops) = stopCount p /\
     Z.of_nat (List.length track) = stopCount p - 1 /\
     (forall i, (i < List.length stops)%nat -> nth i stops 0 = Z.of_nat i) /\
     (forall i, (i < List.length track)%nat -> nth i track 0 = Z.of_nat i)) /\
  (stopCount p <= 0 -> fst (getTrack p ct) = None).
Proof.
  intros Hs Ht. unfold getStops, getTrack.
  rewrite !memoized_transparent by assumption. split.
  - intro Hn.
    destruct (range 0 (stopCount p)) as [stops|] eqn:Es.
    + destruct (range 0 (stopCount p - 1)) as [track|] eqn:Et.
      * exists stops, track.
        destruct (range_spec _ _ _ Es) as [L1 N1].
        destruct (range_spec _ _ _ Et) as [L2 N2].
        repeat split; try lia; intros i Hi; [rewrite N1 | rewrite N2]; auto.
      * exfalso. unfold range in Et.
        replace ((0 <=? stopCount p - 1 - 0) && (stopCount p - 1 - 0 <? 2 ^ 32))
          with true in Et; [discriminate | ].
        symmetry. apply andb_true_iff. split; [apply Z.leb_le | apply Z.ltb_lt]; lia.
    + exfalso. unfold range in Es.
      replace ((0 <=? stopCount p - 0) && (stopCount p - 0 <? 2 ^ 32))
        with true in Es; [discriminate | ].
      symmetry. apply andb_true_iff. split; [apply Z.leb_le | apply Z.ltb_lt]; lia.
  - intro Hn. unfold range.
    replace (0 <=? stopCount p - 1 - 0) with false
      by (symmetry; apply Z.leb_gt; lia).
    reflexivity.
Qed.

(** X1, the witness: the example slider, with a cache left by a render with
    four stops. *)
Lemma stops_and_track_witness :
  let cs := snd (memoized (fun stopCount => range 0 stopCount) None 4) in
  let ct := snd (memoized (fun stopCount => range 0 (stopCount - 1)) None 4) in
  (1 <= stopCount example_props < 2 ^ 32 ->
   exists stops track,
     fst (getStops example_props cs) = Some stops /\
     fst (getTrack example_props ct) = Some track /\
     Z.of_nat (List.length stops) = stopCount example_props /\
     Z.of_nat (List.length track) = stopCount example_props - 1 /\
     (forall i, (i < List.length stops)%nat -> nth i stops 0 = Z.of_nat i) /\
     (forall i, (i < List.length track)%nat -> nth i track 0 = Z.of_nat i)) /\
  (stopCount example_props <= 0 -> fst (getTrack example_props ct) = None).
Proof.
  intros cs ct. apply (stops_and_track example_props cs ct).
  - apply cache_call, cache_empty.
  - apply cache_call, cache_empty.
Defined.

(** ** The thumbs and the tooltip *)

(** A label of the [labels] prop: a string or a number. *)
Inductive Label : Type :=
| LString (s : string)
| LNumber (z : Z).

(** [Math.min(Math.round(pendingValue), stopCount - 1)] in [render], on the
    value of the state; [None] is [NaN]. *)
Definition activeStopIndex (w : World) : option Z :=
  option_map (fun z => Z.min z (stopCount (props w) - 1))
    (ToNumber (st_value (state w))).

(** What the [Stop] component shows for one stop: the thumb with its flags,
    and the tooltip when [isPopupOpen]. *)
Record StopView : Type := mkStopView {
  sv_index : Z;
  thumb_active : bool;    (* active={isSliding} *)
  thumb_hovered : bool;
  thumb_disabled : bool;
  thumb_hidden : bool;    (* hidden={!active} *)
  popup : option Label    (* the Popover, when isPopupOpen *)
}.

(** [const Stop = React.memo(({ isSliding, isHovered, active, label, disabled,
    ...props }) => ...)]; [label] is [None] for [null] and [undefined]. *)
Definition Stop (index : Z) (isSliding isHovered active : bool)
  (label : option Label) (disabled : bool) : StopView :=
  let isPopupOpen :=
    active && isHovered && match label with Some _ => true | None => false end in
  mkStopView index isSliding isHovered disabled (negb active)
    (if isPopupOpen then label else None).

(** [labels[index]] *)
Definition label_at (labels : list (option Label)) (index : Z) : option Label :=
  if index <? 0 then None
  else match nth_error labels (Z.to_nat index) with
       | Some l => l
       | None => None
       end.

(** The thumbs of [render]: [stops.map(index => <Stop ... />)]. [render]
    calls [getTrack] and [getStops] first; [None] when one of them raises. *)
Definition render_thumbs (labels : list (option Label)) (w : World)
  (cs ct : option (Z * list Z)) : option (list StopView) :=
  match fst (getTrack (props w) ct), fst (getStops (props w) cs) with
  | Some _, Some stops =>
      Some (map (fun index =>
                   Stop index (isSliding (state w)) (isHovered (state w))
                     (match activeStopIndex w with
                      | Some a => index =? a
                      | None => false
                      end)
                     (label_at labels index) (disabled (props w)))
              stops)
  | _, _ => None
  end.

Definition shown_thumbs (vs : list StopView) : list Z :=
  map sv_index (filter (fun v => negb (thumb_hidden v)) vs).

Definition open_popups (vs : list StopView) : list (Z * Label) :=
  flat_map (fun v => match popup v with
                     | Some l => [(sv_index v, l)]
                     | None => []
                     end) vs.

Lemma filter_eqb_seq (a : Z) (s n : nat) :
  filter (fun i => i =? a) (map Z.of_nat (seq s n))
  = if (Z.of_nat s <=? a) && (a <? Z.of_nat (s + n)) then [a] else [].
Proof.
  revert s. induction n as [|n IH]; intro s; cbn [seq map filter].
  - destruct (Z.leb_spec (Z.of_nat s) a), (Z.ltb_spec a (Z.of_nat (s + 0)));
      cbn [andb]; try reflexivity; lia.
  - rewrite IH.
    destruct (Z.eqb_spec (Z.of_nat s) a) as [E | E];
      destruct (Z.leb_spec (Z.of_nat s) a), (Z.ltb_spec a (Z.of_nat (s + S n))),
        (Z.leb_spec (Z.of_nat (S s)) a), (Z.ltb_spec a (Z.of_nat (S s + n)));
      cbn [andb]; try lia; try reflexivity.
    subst a. reflexivity.
Qed.

Lemma range_0_stops n stops :
  range 0 n = Some stops -> stops = map Z.of_nat (seq 0 (Z.to_nat n)).
Proof.
  unfold range. destruct (_ && _); [ | discriminate].
  intro H. injection H as <-. rewrite Z.sub_0_r, map_map.
  apply map_ext. intro. lia.
Qed.

(** X2: with [1 <= stopCount < 2^32], [render] shows exactly one thumb when the
    value of the state is a number that is not negative ([null] counts as 0):
    the thumb of stop [min(value, stopCount - 1)]; it shows no thumb when the
    value is negative, [NaN] or [undefined]. A tooltip is open for the stop
    of the shown thumb only, and only while [isHovered] is set and [labels]
    has an entry for that stop. *)
Theorem one_thumb_shown (labels : list (option Label)) (w : World)
  (cs ct : option (Z * list Z)) :
  cache_of (fun stopCount => range 0 stopCount) cs ->
  cache_of (fun stopCount => range 0 (stopCount - 1)) ct ->
  1 <= stopCount (props w) < 2 ^ 32 ->
  exists views,
    render_thumbs labels w cs ct = Some views /\
    map sv_index views = map Z.of_nat (seq 0 (Z.to_nat (stopCount (props w)))) /\
    shown_thumbs views
    = match ToNumber (st_value (state w)) with
      | Some z => if 0 <=? z then [Z.min z (stopCount (props w) - 1)] else []
      | None => []
      end /\
    open_popups views
    = match ToNumber (st_value (state w)) with
      | Some z =>
          if (0 <=? z) && isHovered (state w) then
            match label_at labels (Z.min z (stopCount (props w) - 1)) with
            | Some l => [(Z.min z (stopCount (props w) - 1), l)]
            | None => []
            end
          else []
      | None => []
      end.
Proof.
  intros Hs Ht Hn. unfold render_thumbs, getStops, getTrack.
  rewrite !memoized_transparent by assumption.
  destruct (range 0 (stopCount (props w) - 1)) as [track|] eqn:Et.
  2:{ exfalso. unfold range in Et.
      replace ((0 <=? stopCount (props w) - 1 - 0)
               && (stopCount (props w) - 1 - 0 <? 2 ^ 32))
        with true in Et; [discriminate | ].
      symmetry. apply andb_true_iff.
      split; [apply Z.leb_le | apply Z.ltb_lt]; lia. }
  destruct (range 0 (stopCount (props w))) as [stops|] eqn:Es.
  2:{ exfalso. unfold range in Es.
      replace ((0 <=? stopCount (props w) - 0)
               && (stopCount (props w) - 0 <? 2 ^ 32))
        with true in Es; [discriminate | ].
      symmetry. apply andb_true_iff.
      split; [apply Z.leb_le | apply Z.ltb_lt]; lia. }
  apply range_0_stops in Es. subst stops. clear Et track.
  set (n := Z.to_nat (stopCount (props w))).
  eexists. split; [reflexivity | ]. split.
  { rewrite map_map. cbn [Stop sv_index]. apply map_id. }
  unfold shown_thumbs, open_popups, activeStopIndex.
  destruct (ToNumber (st_value (state w))) as [z|]; cbn [option_map].
  - set (a := Z.min z (stopCount (props w) - 1)).
    assert (F : forall (g : Z -> StopView) (h : StopView -> bool),
               filter h (map g (map Z.of_nat (seq 0 n)))
               = map g (filter (fun i => h (g i)) (map Z.of_nat (seq 0 n)))).
    { intros g h. induction (map Z.of_nat (seq 0 n)) as [|x l IH];
        [reflexivity | ]. cbn [map filter]. destruct (h (g x)); cbn [map];
        rewrite IH; reflexivity. }
    split.
    + rewrite F. cbn [Stop thumb_hidden]. rewrite map_map. cbn [Stop sv_index].
      rewrite (filter_ext _ (fun i => i =? a)) by (intro; apply negb_involutive).
      rewrite filter_eqb_seq, map_id. subst a n.
      destruct (Z.leb_spec 0 z);
        destruct (Z.leb_spec (Z.of_nat 0) (Z.min z (stopCount (props w) - 1))),
          (Z.ltb_spec (Z.min z (stopCount (props w) - 1))
             (Z.of_nat (0 + Z.to_nat (stopCount (props w)))));
        cbn [andb]; try reflexivity; lia.
    + rewrite flat_map_concat_map, map_map.
      rewrite <- flat_map_concat_map.
      assert (G : forall l : list Z,
                 flat_map (fun x =>
                   match popup (Stop x (isSliding (state w)) (isHovered (state w))
                                  (x =? a) (label_at labels x) (disabled (props w)))
                   with
                   | Some l0 => [(sv_index
                                    (Stop x (isSliding (state w))
                                       (isHovered (state w)) (x =? a)
                                       (label_at labels x) (disabled (props w))),
                                  l0)]
                   | None => []
                   end) l
                 = flat_map (fun x =>
                     if isHovered (state w)
                     then match label_at labels x with
                          | Some l0 => [(x, l0)]
                          | None => []
                          end
                     else []) (filter (fun i => i =? a) l)).
      { induction l as [|x l IH]; [reflexivity | ].
        cbn [flat_map filter]. rewrite IH. unfold Stop at 1 2.
        cbn [popup sv_index].
        destruct (x =? a); cbn [andb flat_map];
          destruct (isHovered (state w)); cbn [andb];
          destruct (label_at labels x); reflexivity. }
      rewrite G, filter_eqb_seq. subst a n.
      destruct (Z.leb_spec 0 z);
        destruct (Z.leb_spec (Z.of_nat 0) (Z.min z (stopCount (props w) - 1))),
          (Z.ltb_spec (Z.min z (stopCount (props w) - 1))
             (Z.of_nat (0 + Z.to_nat (stopCount (props w)))));
        cbn [andb flat_map]; try lia;
        destruct (isHovered (state w)); try reflexivity;
        destruct (label_at labels _); reflexivity.
  - split.
    + induction (map Z.of_nat (seq 0 n)) as [|x l IH]; [reflexivity | ].
      cbn [map filter Stop thumb_hidden negb]. exact IH.
    + induction (map Z.of_nat (seq 0 n)) as [|x l IH]; [reflexivity | ].
      cbn [map flat_map Stop popup andb app]. exact IH.
Qed.

(** X2, the witness: ten stops, value 5. *)
Lemma one_thumb_shown_witness :
  let w := mount example_props example_rect 0 in
  let labels := [Some (LString "a"); Some (LNumber 2)] in
  exists views,
    render_thumbs labels w None None = Some views /\
    map sv_index views = map Z.of_nat (seq 0 (Z.to_nat (stopCount (props w)))) /\
    shown_thumbs views
    = match ToNumber (st_value (state w)) with
      | Some z => if 0 <=? z then [Z.min z (stopCount (props w) - 1)] else []
      | None => []
      end /\
    open_popups views
    = match ToNumber (st_value (state w)) with
      | Some z =>
          if (0 <=? z) && isHovered (state w) then
            match label_at labels (Z.min z (stopCount (props w) - 1)) with
            | Some l => [(Z.min z (stopCount (props w) - 1), l)]
            | None => []
            end
          else []
      | None => []
      end.
Proof.
  intros w labels. apply (one_thumb_shown labels w None None).
  - apply cache_empty.
  - apply cache_empty.
  - simpl. lia.
Defined.

(** ** More on the value mapper *)

From Stdlib Require Import Lqa.

Section ValueMapperMore.
Local Open Scope Q_scope.

(** The ternary chain at the end of [calculateValue]. *)
Definition bounded (p : Props) (newValue : jsval) : jsval :=
  if js_gt newValue (prop_val (maxValue p)) then prop_val (maxValue p)
  else if js_lt newValue (prop_val (minValue p)) then prop_val (minValue p)
  else newValue.

(** The value before the bounds, over a rectangle with a width. *)
Definition raw_value (p : Props) (rect : Rect) (clientX : Q) : Z :=
  Qfloor (Math_min (Math_max 0 (clientX - left rect)) (right rect - left rect)
          / (right rect - left rect) * inject_Z (stopCount p - 1) + (1 # 2)).

Lemma calculateValue_raw (p : Props) (rect : Rect) (clientX : Q) :
  left rect < right rect ->
  calculateValue p (Some rect) clientX = bounded p (JInt (raw_value p rect clientX)).
Proof.
  intro Hrect. unfold calculateValue, bounded, raw_value, js_div.
  destruct (Qeq_bool (right rect - left rect) 0) eqn:E; [ | reflexivity].
  apply Qeq_bool_iff in E. lra.
Qed.


Lemma clampedX_cases (pos w : Q) :
  0 < w ->
  (pos < 0 /\ Math_min (Math_max 0 pos) w = 0) \/
  (0 <= pos <= w /\ Math_min (Math_max 0 pos) w = pos) \/
  (w < pos /\ Math_min (Math_max 0 pos) w = w).
Proof.
  intro Hw. unfold Math_min, Math_max.
  destruct (Qle_bool 0 pos) eqn:E1.
  - apply Qle_bool_iff in E1.
    destruct (Qle_bool pos w) eqn:E2.
    + apply Qle_bool_iff in E2. right. left. split; [split; assumption | reflexivity].
    + right. right. split; [ | reflexivity].
      apply Qnot_le_lt. intro H. apply Qle_bool_iff in H. congruence.
  - assert (Hp : pos < 0).
    { apply Qnot_le_lt. intro H. apply Qle_bool_iff in H. congruence. }
    destruct (Qle_bool 0 w) eqn:E2.
    + left. split; [exact Hp | reflexivity].
    + exfalso. apply Qlt_le_weak, Qle_bool_iff in Hw. congruence.
Qed.


(** The ternary chain on integers. *)
Definition bounded_int (p : Props) (a : Z) : Z :=
  match maxValue p, minValue p with
  | Some M, Some m => if (M <? a)%Z then M else if (a <? m)%Z then m else a
  | Some M, None => if (M <? a)%Z then M else a
  | None, Some m => if (a <? m)%Z then m else a
  | None, None => a
  end.

Lemma bounded_JInt (p : Props) (a : Z) :
  bounded p (JInt a) = JInt (bounded_int p a).
Proof.
  unfold bounded, bounded_int, js_gt, js_lt.
  destruct (maxValue p) as [M | ]; destruct (minValue p) as [m | ]; cbn.
  - destruct (M <? a)%Z; [reflexivity | ]. destruct (a <? m)%Z; reflexivity.
  - destruct (M <? a)%Z; reflexivity.
  - destruct (a <? m)%Z; reflexivity.
  - reflexivity.
Qed.

Definition bounds_ordered (p : Props) : Prop :=
  match minValue p, maxValue p with
  | Some m, Some M => (m <= M)%Z
  | _, _ => True
  end.

Lemma bounded_int_mono (p : Props) (a b : Z) :
  bounds_ordered p -> (a <= b)%Z -> (bounded_int p a <= bounded_int p b)%Z.
Proof.
  unfold bounds_ordered, bounded_int. intros Hb Hab.
  destruct (maxValue p) as [M | ]; destruct (minValue p) as [m | ];
    repeat match goal with
           | |- context [(?x <? ?y)%Z] => destruct (Z.ltb_spec x y)
           end; lia.
Qed.

Lemma clampedX_mono (x y w : Q) :
  0 < w -> x <= y ->
  Math_min (Math_max 0 x) w <= Math_min (Math_max 0 y) w.
Proof.
  intros Hw Hxy.
  destruct (clampedX_cases x w Hw) as [[H1 ->] | [[H1 ->] | [H1 ->]]];
    destruct (clampedX_cases y w Hw) as [[H2 ->] | [[H2 ->] | [H2 ->]]]; lra.
Qed.

Lemma raw_value_mono (p : Props) (rect : Rect) (x y : Q) :
  left rect < right rect -> (1 <= stopCount p)%Z -> x <= y ->
  (raw_value p rect x <= raw_value p rect y)%Z.
Proof.
  intros Hrect Hn Hxy. unfold raw_value. apply Qfloor_resp_le.
  apply Qplus_le_l.
  apply Qmult_le_compat_r.
  - unfold Qdiv. apply Qmult_le_compat_r.
    + apply clampedX_mono; lra.
    + apply Qinv_le_0_compat. lra.
  - change 0 with (inject_Z 0). rewrite <- Zle_Qle. lia.
Qed.




(** X4: over a rectangle with a width, with at least one stop and bounds in
    order, [calculateValue] is monotone in the pointer position. *)
Theorem calculateValue_monotone (p : Props) (rect : Rect) (x y : Q) :
  left rect < right rect ->
  (1 <= stopCount p)%Z ->
  bounds_ordered p ->
  x <= y ->
  exists a b : Z,
    calculateValue p (Some rect) x = JInt a /\
    calculateValue p (Some rect) y = JInt b /\
    (a <= b)%Z.
Proof.
  intros Hrect Hn Hb Hxy.
  exists (bounded_int p (raw_value p rect x)), (bounded_int p (raw_value p rect y)).
  rewrite !calculateValue_raw by exact Hrect.
  rewrite !bounded_JInt.
  split; [reflexivity | split; [reflexivity | ]].
  apply bounded_int_mono; [exact Hb | ].
  apply raw_value_mono; assumption.
Qed.

(** X4, the witness. *)
Lemma calculateValue_monotone_witness :
  exists a b : Z,
    calculateValue example_props (Some example_rect) (12 # 1) = JInt a /\
    calculateValue example_props (Some example_rect) (47 # 1) = JInt b /\
    (a <= b)%Z.
Proof.
  apply (calculateValue_monotone example_props example_rect (12 # 1) (47 # 1)).
  - reflexivity.
  - simpl. lia.
  - unfold bounds_ordered. simpl. lia.
  - vm_compute. discriminate.
Defined.

(** X5: a pointer left of the track maps like the left edge and a pointer
    right of it like the right edge. *)
Theorem calculateValue_outside (p : Props) (rect : Rect) (x : Q) :
  left rect < right rect ->
  (x <= left rect ->
   calculateValue p (Some rect) x = calculateValue p (Some rect) (left rect)) /\
  (right rect <= x ->
   calculateValue p (Some rect) x = calculateValue p (Some rect) (right rect)).
Proof.
  intro Hrect.
  assert (Hw : 0 < right rect - left rect) by lra.
  split; intro Hx; rewrite !calculateValue_raw by exact Hrect;
    do 2 f_equal; unfold raw_value; apply Qfloor_comp;
    apply Qplus_comp; [ | reflexivity | | reflexivity];
    apply Qmult_comp; [ | reflexivity | | reflexivity];
    apply Qdiv_comp; [ | reflexivity | | reflexivity].
  - destruct (clampedX_cases (x - left rect) _ Hw) as [[H1 ->] | [[H1 ->] | [H1 ->]]];
      destruct (clampedX_cases (left rect - left rect) _ Hw)
        as [[H2 ->] | [[H2 ->] | [H2 ->]]]; lra.
  - destruct (clampedX_cases (x - left rect) _ Hw) as [[H1 ->] | [[H1 ->] | [H1 ->]]];
      destruct (clampedX_cases (right rect - left rect) _ Hw)
        as [[H2 ->] | [[H2 ->] | [H2 ->]]]; lra.
Qed.

(** X5, the witness. *)
Lemma calculateValue_outside_witness :
  calculateValue example_props (Some example_rect) ((-40) # 1)
  = calculateValue example_props (Some example_rect) (left example_rect) /\
  calculateValue example_props (Some example_rect) (250 # 1)
  = calculateValue example_props (Some example_rect) (right example_rect).
Proof.
  split.
  - apply (calculateValue_outside example_props example_rect ((-40) # 1)).
    + reflexivity.
    + vm_compute. discriminate.
  - apply (calculateValue_outside example_props example_rect (250 # 1)).
    + reflexivity.
    + vm_compute. discriminate.
Defined.

End ValueMapperMore.

(** ** A disabled slider *)

(** What holds of a slider while [disabled] is set: no callback was called,
    the value is the one of the props, no drag is on, and the debounce of
    the key input holds no call. *)
Definition inert (w : World) : Prop :=
  disabled (props w) = true /\
  calls w = [] /\
  st_value (state w) = value (props w) /\
  isSliding (state w) = false /\
  lastArgs (keyInputDebounce w) = None.

Definition keeps_inert (w w' : World) : Prop := inert w -> inert w'.

Definition stays_disabled (a : Action) : bool :=
  match a with
  | Dispatch (ReceiveProps nextProps) => disabled nextProps
  | _ => true
  end.

Lemma inert_handleTogglePopover isOpen delay w :
  keeps_inert w (handleTogglePopover isOpen delay w).
Proof.
  unfold keeps_inert, inert, handleTogglePopover, clearTimeout, setTimeout.
  intro H. destruct isOpen; cbn [negb]; destruct (timeout_ w); wsimpl; exact H.
Qed.

Lemma inert_popoverTimeout isOpen w : keeps_inert w (popoverTimeout isOpen w).
Proof.
  unfold keeps_inert, inert, popoverTimeout, setState, done.
  intro H. destruct (alive w); wsimpl; exact H.
Qed.

Lemma inert_keyDown_func key w :
  keeps_inert w (handleThrottledKeyDown_func key w).
Proof.
  intro H. unfold handleThrottledKeyDown_func.
  destruct H as (Hd & H). rewrite Hd.
  unfold setState. destruct (alive w); [ | split; assumption].
  apply inert_handleTogglePopover.
  unfold inert. wsimpl. split; assumption.
Qed.

Lemma inert_handleThrottledKeyDown key w :
  keeps_inert w (handleThrottledKeyDown key w).
Proof.
  unfold handleThrottledKeyDown.
  apply R_debounced;
    try (intros a w'; apply inert_keyDown_func);
    unfold keeps_inert; try tauto; intros; assumption.
Qed.

Lemma inert_keyDownExpired w : keeps_inert w (keyDownExpired w).
Proof.
  unfold keyDownExpired.
  apply R_timerExpired;
    try (intros a w'; apply inert_keyDown_func);
    unfold keeps_inert; try tauto; intros; assumption.
Qed.

Lemma inert_keyInputExpired w : keeps_inert w (keyInputExpired w).
Proof.
  intro H. pose proof H as (_ & _ & _ & _ & Hargs).
  unfold keyInputExpired, timerExpired.
  destruct (shouldInvoke _ _ _).
  - unfold trailingEdge, modify. wsimpl.
    unfold with_timerId, with_lastArgs. wsimpl. rewrite Hargs.
    unfold inert in *. wsimpl. tauto.
  - unfold setTimeout, modify, with_timerId. wsimpl.
    unfold inert in *. wsimpl. exact H.
Qed.

Lemma inert_dispatch e w :
  stays_disabled (Dispatch e) = true -> keeps_inert w (dispatch e w).
Proof.
  intros He H. pose proof H as (Hd & Hc & Hv & Hs & Hargs).
  destruct e; cbn [dispatch].
  - destruct (alive w); [ | exact H]. unfold handleMouseDown. rewrite Hd. exact H.
  - destruct (registered _ w); [ | exact H]. unfold handleMouseMove. rewrite Hd. exact H.
  - destruct (registered _ w); [ | exact H]. unfold handleMouseUp. rewrite Hd. exact H.
  - destruct (alive w); [ | exact H]. unfold handleTouchStart. rewrite Hd. exact H.
  - destruct (registered _ w); [ | exact H]. unfold handleTouchMove. rewrite Hd. exact H.
  - destruct (registered _ w); [ | exact H]. unfold handleTouchEnd. rewrite Hd. exact H.
  - destruct (alive w); [ | exact H]. unfold handleKeyDown.
    destruct (_ || _)%bool; [exact H | ].
    apply inert_handleThrottledKeyDown. exact H.
  - destruct (alive w); [ | exact H]. unfold handleMouseEnter.
    apply inert_handleTogglePopover. exact H.
  - destruct (alive w); [ | exact H]. unfold handleMouseLeave.
    apply inert_handleTogglePopover. exact H.
  - cbn [stays_disabled] in He.
    destruct (alive w) eqn:Ha; [ | exact H].
    unfold receiveProps, componentWillReceiveProps, setState, done.
    destruct (strict_neq (value nextProps) (st_value (state w))) eqn:E.
    + rewrite Ha. unfold inert. wsimpl. tauto.
    + unfold inert. wsimpl. repeat split; try assumption.
      destruct (value nextProps), (st_value (state w)); try discriminate E;
        try reflexivity.
      cbn in E. apply negb_false_iff, Z.eqb_eq in E. congruence.
  - destruct (alive w); [ | exact H].
    unfold unmount, componentWillUnmount, clearTimeout.
    destruct (timeout_ w); unfold inert; wsimpl; exact H.
Qed.

Lemma inert_act a w : stays_disabled a = true -> keeps_inert w (act a w).
Proof.
  intros Ha. destruct a as [e | t | T]; cbn [act].
  - apply inert_dispatch. exact Ha.
  - intro H. unfold fire.
    assert (H' : inert (set_now (Z.max (now (clearTimeout (timer_id t) w))
                                  (deadline t))
                          (clearTimeout (timer_id t) w))) by exact H.
    revert H'. generalize (set_now (Z.max (now (clearTimeout (timer_id t) w))
                                      (deadline t))
                             (clearTimeout (timer_id t) w)).
    intros w' H'. destruct (callback t); cbn [run_callback].
    + apply inert_popoverTimeout. exact H'.
    + apply inert_keyInputExpired. exact H'.
    + apply inert_keyDownExpired. exact H'.
  - intro H. exact H.
Qed.

(** X6: a slider mounted with [disabled] set, and kept disabled by the
    props that follow, never calls [onSlide] or [onStop], keeps the value of
    its props and never starts sliding, whatever events arrive and whatever
    timers fire. *)
Theorem disabled_is_inert (p : Props) (r : Rect) (t0 : Z) (l : list Action) :
  disabled p = true ->
  forallb stays_disabled l = true ->
  calls (acts l (mount p r t0)) = [] /\
  st_value (state (acts l (mount p r t0))) = value (props (acts l (mount p r t0))) /\
  isSliding (state (acts l (mount p r t0))) = false.
Proof.
  intros Hd Hl.
  assert (H : inert (acts l (mount p r t0))).
  { induction l as [ | a l IH] using rev_ind.
    - cbn. unfold inert. cbn. tauto.
    - rewrite forallb_app in Hl. apply andb_prop in Hl. destruct Hl as [Hl Ha].
      cbn in Ha. rewrite andb_true_r in Ha.
      rewrite acts_snoc. apply inert_act; [exact Ha | ]. apply IH. exact Hl. }
  destruct H as (_ & Hc & Hv & Hs & _). tauto.
Qed.

Definition disabled_example : Props :=
  mkProps true (JInt 5) (Some 2) (Some 8) true true 10.

(** X6, the witness: a press on the track, an arrow key, the timers of the
    key, a move and a release. *)
Lemma disabled_is_inert_witness :
  let l := [Dispatch (MouseDown 0 (70 # 1)); Dispatch (KeyDown "ArrowRight");
            Fire (mkTimer 1 50 KeyDownExpired);
            Fire (mkTimer 2 400 (PopoverTimeout false));
            Dispatch (MouseMove (90 # 1)); Dispatch MouseUp] in
  calls (acts l (mount disabled_example example_rect 0)) = [] /\
  st_value (state (acts l (mount disabled_example example_rect 0)))
  = value (props (acts l (mount disabled_example example_rect 0))) /\
  isSliding (state (acts l (mount disabled_example example_rect 0))) = false.
Proof.
  intro l. apply (disabled_is_inert disabled_example example_rect 0 l).
  - reflexivity.
  - reflexivity.
Defined.

(** ** The timer of the tooltip *)

(** An invariant that [put], the timers of the wrapper and the wrapped
    function keep is kept by the functions of [debounce]. *)
Section DebounceInvariant.
Context {A : Type}.
Variable o : DebounceOptions.
Variable get : World -> Debounced A.
Variable put : Debounced A -> Handler.
Variable func : A -> Handler.
Variable expired : TimerCb.
Variable I : World -> Prop.
Hypothesis I_put : forall d w, I w -> I (put d w).
Hypothesis I_setTimeout :
  forall delay w, I w -> I (snd (setTimeout expired delay w)).
Hypothesis I_func : forall a w, I w -> I (func a w).

Lemma inv_modify f w : I w -> I (modify get put f w).
Proof. apply I_put. Qed.

Lemma inv_invokeFunc time w : I w -> I (invokeFunc get put func time w).
Proof.
  intro H. unfold invokeFunc.
  destruct (lastArgs (get w)); [apply I_func | ]; do 2 apply inv_modify; exact H.
Qed.

Lemma inv_timer_then delay (k : nat -> Handler) w :
  (forall id w', I w' -> I (k id w')) ->
  I w -> I (let (id, w') := setTimeout expired delay w in k id w').
Proof.
  intros Hk H. pose proof (I_setTimeout delay w H) as H'.
  destruct (setTimeout expired delay w) as [id w']. cbn in H'.
  apply Hk, H'.
Qed.

Lemma inv_leadingEdge time w :
  I w -> I (leadingEdge o get put func expired time w).
Proof.
  intro H. unfold leadingEdge. apply inv_timer_then.
  - intros id w' H'. destruct (leading o).
    + apply inv_invokeFunc, inv_modify, H'.
    + apply inv_modify, H'.
  - apply inv_modify, H.
Qed.

Lemma inv_trailingEdge time w :
  I w -> I (trailingEdge o get put func time w).
Proof.
  intro H. unfold trailingEdge.
  destruct (lastArgs _); [destruct (trailing o) | ];
    first [apply inv_invokeFunc | apply inv_modify]; apply inv_modify, H.
Qed.

Lemma inv_timerExpired w :
  I w -> I (timerExpired o get put func expired w).
Proof.
  intro H. unfold timerExpired. destruct (shouldInvoke o _ _).
  - apply inv_trailingEdge, H.
  - apply inv_timer_then; [ | exact H]. intros. apply inv_modify. assumption.
Qed.

Lemma inv_debounced args w :
  I w -> I (debounced o get put func expired args w).
Proof.
  intro H. unfold debounced.
  set (w2 := modify get put (with_lastCallTime (Some (now w)))
               (modify get put (with_lastArgs (Some args)) w)).
  assert (H2 : I w2) by (do 2 apply inv_modify; exact H).
  clearbody w2.
  assert (L : I match timerId (get w2) with
                | Some _ => w2
                | None =>
                    let (id, w0) := setTimeout expired (wait o) w2 in
                    modify get put (with_timerId (Some id)) w0
                end).
  { destruct (timerId (get w2)); [exact H2 | ].
    apply inv_timer_then; [ | exact H2]. intros. apply inv_modify. assumption. }
  destruct (shouldInvoke o (now w) (get w)); [ | exact L].
  destruct (timerId (get w2)) eqn:E.
  - destruct (maxing o); [ | exact L].
    apply inv_timer_then; [ | exact H2].
    intros. apply inv_invokeFunc, inv_modify. assumption.
  - apply inv_leadingEdge, H2.
Qed.
End DebounceInvariant.

Definition is_popover (t : Timer) : bool :=
  match callback t with
  | PopoverTimeout _ => true
  | _ => false
  end.

(** Handles are fresh and distinct, and a pending timer of the tooltip is
    the one [_timeout] holds. *)
Record tooltip_inv (w : World) : Prop := mk_tooltip_inv {
  ids_below : forall t, In t (timers w) -> (timer_id t < next_timer w)%nat;
  ids_NoDup : NoDup (map timer_id (timers w));
  tooltip_tracked :
    forall t, In t (timers w) -> is_popover t = true ->
              timeout_ w = Some (timer_id t)
}.

Lemma tooltip_inv_same w w' :
  timers w' = timers w -> next_timer w' = next_timer w ->
  timeout_ w' = timeout_ w -> tooltip_inv w -> tooltip_inv w'.
Proof.
  intros Ht Hn Ho [H1 H2 H3]. constructor; rewrite ?Ht, ?Hn, ?Ho; assumption.
Qed.

Lemma tooltip_inv_clearTimeout id w :
  tooltip_inv w -> tooltip_inv (clearTimeout id w).
Proof.
  intros [H1 H2 H3]. unfold clearTimeout. constructor; wsimpl.
  - intros t Ht. apply filter_In in Ht. apply H1. tauto.
  - apply (NoDup_without id). exact H2.
  - intros t Ht. apply filter_In in Ht. apply H3. tauto.
Qed.

(** A timer that is not one of the tooltip joins the queue. *)
Lemma tooltip_inv_setTimeout cb delay w :
  (forall b, cb <> PopoverTimeout b) ->
  tooltip_inv w -> tooltip_inv (snd (setTimeout cb delay w)).
Proof.
  intros Hcb [H1 H2 H3]. unfold setTimeout. wsimpl. constructor; wsimpl.
  - intros t Ht. apply in_app_or in Ht. destruct Ht as [Ht | [<- | []]].
    + specialize (H1 t Ht). lia.
    + cbn. lia.
  - apply NoDup_snoc_fresh; assumption.
  - intros t Ht Hp. apply in_app_or in Ht. destruct Ht as [Ht | [<- | []]].
    + apply H3; assumption.
    + unfold is_popover in Hp. cbn in Hp. destruct cb; try discriminate Hp.
      exfalso. eapply Hcb. reflexivity.
Qed.

(** After [clearTimeout(this._timeout)] no timer of the tooltip is left. *)
Lemma tooltip_cleared w t :
  tooltip_inv w ->
  In t (timers match timeout_ w with
               | Some id => clearTimeout id w
               | None => w
               end) ->
  is_popover t = false.
Proof.
  intros [H1 H2 H3] Ht. destruct (is_popover t) eqn:E; [ | reflexivity].
  exfalso. destruct (timeout_ w) as [id | ] eqn:Ho.
  - unfold clearTimeout in Ht. wsimpl in Ht. apply In_without in Ht.
    destruct Ht as [Ht Hne]. specialize (H3 t Ht E). congruence.
  - specialize (H3 t Ht E). congruence.
Qed.

Lemma tooltip_inv_handleTogglePopover isOpen delay w :
  tooltip_inv w -> tooltip_inv (handleTogglePopover isOpen delay w).
Proof.
  intro H.
  assert (G : forall b,
             tooltip_inv
               (let w1 := match timeout_ w with
                          | Some id => clearTimeout id w
                          | None => w
                          end in
                let (id, w2) := setTimeout (PopoverTimeout b) delay w1 in
                set_timeout_ (Some id) w2)).
  { intro b. pose proof (tooltip_cleared w) as Hc. specialize (Hc).
    assert (H' : tooltip_inv match timeout_ w with
                             | Some id => clearTimeout id w
                             | None => w
                             end).
    { destruct (timeout_ w); [apply tooltip_inv_clearTimeout | ]; exact H. }
    pose proof (fun t => Hc t H) as Hc'. clear Hc.
    revert H' Hc'.
    generalize (match timeout_ w with
                | Some id => clearTimeout id w
                | None => w
                end).
    intros w1 [H1 H2 H3] Hc. cbn zeta. unfold setTimeout. wsimpl.
    constructor; wsimpl.
    - intros t Ht. apply in_app_or in Ht. destruct Ht as [Ht | [<- | []]].
      + specialize (H1 t Ht). lia.
      + cbn. lia.
    - apply NoDup_snoc_fresh; assumption.
    - intros t Ht Hp. apply in_app_or in Ht. destruct Ht as [Ht | [<- | []]].
      + rewrite (Hc t Ht) in Hp. discriminate Hp.
      + reflexivity. }
  unfold handleTogglePopover. destruct isOpen; cbn [negb]; apply G.
Qed.

Lemma tooltip_inv_invoke provided c w :
  tooltip_inv w -> tooltip_inv (invoke provided c w).
Proof.
  unfold invoke. destruct provided; [ | tauto].
  apply tooltip_inv_same; reflexivity.
Qed.

Lemma tooltip_inv_setState update (callback : Handler) w :
  (forall w', tooltip_inv w' -> tooltip_inv (callback w')) ->
  tooltip_inv w -> tooltip_inv (setState update callback w).
Proof.
  intros Hk H. unfold setState. destruct (alive w); [ | exact H].
  apply Hk. revert H. apply tooltip_inv_same; reflexivity.
Qed.

Lemma tooltip_inv_keyInput_func u w :
  tooltip_inv w -> tooltip_inv (handleDebouncedKeyInput_func u w).
Proof.
  intro H. unfold handleDebouncedKeyInput_func.
  apply tooltip_inv_invoke, tooltip_inv_handleTogglePopover, H.
Qed.

Lemma tooltip_inv_handleDebouncedKeyInput w :
  tooltip_inv w -> tooltip_inv (handleDebouncedKeyInput w).
Proof.
  unfold handleDebouncedKeyInput. apply inv_debounced.
  - intros d w'. apply tooltip_inv_same; reflexivity.
  - intros delay w'. apply tooltip_inv_setTimeout. discriminate.
  - apply tooltip_inv_keyInput_func.
Qed.

Lemma tooltip_inv_keyInputExpired w :
  tooltip_inv w -> tooltip_inv (keyInputExpired w).
Proof.
  unfold keyInputExpired. apply inv_timerExpired.
  - intros d w'. apply tooltip_inv_same; reflexivity.
  - intros delay w'. apply tooltip_inv_setTimeout. discriminate.
  - apply tooltip_inv_keyInput_func.
Qed.

Lemma tooltip_inv_keyDown_func key w :
  tooltip_inv w -> tooltip_inv (handleThrottledKeyDown_func key w).
Proof.
  intro H. unfold handleThrottledKeyDown_func.
  destruct (disabled (props w)).
  - apply tooltip_inv_setState; [ | exact H].
    intros w'. apply tooltip_inv_handleTogglePopover.
  - destruct (_ || _)%bool; [ | destruct (_ || _)%bool]; [ | | exact H];
      (apply tooltip_inv_setState; [ | exact H]);
      intros w' H'; apply tooltip_inv_invoke,
        tooltip_inv_handleDebouncedKeyInput, H'.
Qed.

Lemma tooltip_inv_handleThrottledKeyDown key w :
  tooltip_inv w -> tooltip_inv (handleThrottledKeyDown key w).
Proof.
  unfold handleThrottledKeyDown. apply inv_debounced.
  - intros d w'. apply tooltip_inv_same; reflexivity.
  - intros delay w'. apply tooltip_inv_setTimeout. discriminate.
  - apply tooltip_inv_keyDown_func.
Qed.

Lemma tooltip_inv_keyDownExpired w :
  tooltip_inv w -> tooltip_inv (keyDownExpired w).
Proof.
  unfold keyDownExpired. apply inv_timerExpired.
  - intros d w'. apply tooltip_inv_same; reflexivity.
  - intros delay w'. apply tooltip_inv_setTimeout. discriminate.
  - apply tooltip_inv_keyDown_func.
Qed.

Lemma tooltip_inv_preventDefault w :
  tooltip_inv w -> tooltip_inv (preventDefault w).
Proof. apply tooltip_inv_same; reflexivity. Qed.

Lemma tooltip_inv_addEventListener l w :
  tooltip_inv w -> tooltip_inv (addEventListener l w).
Proof.
  unfold addEventListener. destruct (existsb _ _); [tauto | ].
  apply tooltip_inv_same; reflexivity.
Qed.

Lemma tooltip_inv_removeEventListener l w :
  tooltip_inv w -> tooltip_inv (removeEventListener l w).
Proof. apply tooltip_inv_same; reflexivity. Qed.

Lemma tooltip_inv_moves clientX w :
  tooltip_inv w ->
  tooltip_inv (handleMouseMove clientX w) /\
  tooltip_inv (handleTouchMove clientX w).
Proof.
  intro H. unfold handleMouseMove, handleTouchMove.
  destruct (disabled (props w)); [tauto | ].
  split; (destruct (strict_neq _ _);
          [ | apply tooltip_inv_preventDefault, H]);
    (apply tooltip_inv_setState; [tauto | ]);
    apply tooltip_inv_invoke, tooltip_inv_preventDefault, H.
Qed.

Lemma tooltip_inv_dispatch e w :
  tooltip_inv w -> tooltip_inv (dispatch e w).
Proof.
  intro H. destruct e; cbn [dispatch];
    match goal with
    | |- tooltip_inv (if ?c then _ else _) => destruct c; [ | exact H]
    end.
  - unfold handleMouseDown. destruct (disabled _); [exact H | ].
    destruct (_ || _)%bool; [exact H | ].
    apply tooltip_inv_moves.
    apply tooltip_inv_setState; [tauto | ].
    do 2 apply tooltip_inv_addEventListener.
    apply tooltip_inv_preventDefault, H.
  - apply tooltip_inv_moves, H.
  - unfold handleMouseUp. destruct (disabled _); [exact H | ].
    apply tooltip_inv_handleTogglePopover.
    apply tooltip_inv_setState; [tauto | ].
    apply tooltip_inv_invoke.
    do 2 apply tooltip_inv_removeEventListener.
    apply tooltip_inv_preventDefault, H.
  - unfold handleTouchStart. destruct (disabled _); [exact H | ].
    apply tooltip_inv_moves.
    apply tooltip_inv_setState; [tauto | ].
    do 2 apply tooltip_inv_addEventListener.
    apply tooltip_inv_preventDefault, H.
  - apply tooltip_inv_moves, H.
  - unfold handleTouchEnd. destruct (disabled _); [exact H | ].
    apply tooltip_inv_handleTogglePopover.
    apply tooltip_inv_setState; [tauto | ].
    apply tooltip_inv_invoke.
    do 2 apply tooltip_inv_removeEventListener.
    apply tooltip_inv_preventDefault, H.
  - unfold handleKeyDown. destruct (_ || _)%bool; [exact H | ].
    apply tooltip_inv_handleThrottledKeyDown, tooltip_inv_preventDefault, H.
  - unfold handleMouseEnter.
    apply tooltip_inv_handleTogglePopover, tooltip_inv_preventDefault, H.
  - unfold handleMouseLeave.
    apply tooltip_inv_handleTogglePopover, tooltip_inv_preventDefault, H.
  - unfold receiveProps, componentWillReceiveProps.
    destruct (strict_neq _ _).
    + assert (H' : tooltip_inv
                     (setState (fun s => mkState (value nextProps) (isHovered s)
                                           (isSliding s)) done w))
        by (apply tooltip_inv_setState; [tauto | exact H]).
      revert H'. apply tooltip_inv_same; reflexivity.
    + revert H. apply tooltip_inv_same; reflexivity.
  - unfold unmount, componentWillUnmount.
    assert (H' : tooltip_inv match timeout_ w with
                             | Some id => clearTimeout id w
                             | None => w
                             end)
      by (destruct (timeout_ w); [apply tooltip_inv_clearTimeout | ]; exact H).
    revert H'. apply tooltip_inv_same; reflexivity.
Qed.

(** A timer of the tooltip that fires leaves none behind. *)
Lemma tooltip_inv_fire t w :
  In t (timers w) -> tooltip_inv w -> tooltip_inv (fire t w).
Proof.
  intros Hin H. rewrite fire_popped.
  assert (Hp : tooltip_inv (popped t w)).
  { unfold popped.
    assert (H' : tooltip_inv (clearTimeout (timer_id t) w))
      by (apply tooltip_inv_clearTimeout, H).
    revert H'. apply tooltip_inv_same; reflexivity. }
  destruct (callback t) eqn:Ecb; cbn [run_callback].
  - assert (Hnone : forall u, In u (timers (popped t w)) -> is_popover u = false).
    { intros u Hu. destruct (is_popover u) eqn:E; [ | reflexivity]. exfalso.
      unfold popped, clearTimeout in Hu. wsimpl in Hu.
      apply In_without in Hu. destruct Hu as [Hu Hne].
      destruct H as [_ _ H3].
      pose proof (H3 u Hu E) as E1.
      assert (Et : is_popover t = true) by (unfold is_popover; rewrite Ecb; reflexivity).
      pose proof (H3 t Hin Et) as E2. congruence. }
    destruct Hp as [H1 H2 H3].
    unfold popoverTimeout, setState, done.
    destruct (alive (popped t w)); constructor; wsimpl; try assumption;
      intros u Hu E; rewrite (Hnone u Hu) in E; discriminate E.
  - apply tooltip_inv_keyInputExpired, Hp.
  - apply tooltip_inv_keyDownExpired, Hp.
Qed.

(** An action that can happen: a timer that fires is pending. *)
Definition enabled (a : Action) (w : World) : Prop :=
  match a with
  | Fire t => In t (timers w)
  | _ => True
  end.

Inductive reaches (w0 : World) : World -> Prop :=
| reaches_start : reaches w0 w0
| reaches_act (a : Action) (w : World) :
    reaches w0 w -> enabled a w -> reaches w0 (act a w).

Lemma tooltip_inv_mount p r t0 : tooltip_inv (mount p r t0).
Proof.
  constructor; cbn; [intros t [] | constructor | intros t []].
Qed.

Lemma tooltip_inv_reaches w0 w :
  tooltip_inv w0 -> reaches w0 w -> tooltip_inv w.
Proof.
  intros H0 Hr. induction Hr as [ | a w Hr IH Ha]; [exact H0 | ].
  destruct a as [e | t | T]; cbn [act].
  - apply tooltip_inv_dispatch, IH.
  - apply tooltip_inv_fire; [exact Ha | exact IH].
  - revert IH. apply tooltip_inv_same; reflexivity.
Qed.

Lemma NoDup_filter_ids (f : Timer -> bool) ts :
  NoDup (map timer_id ts) -> NoDup (map timer_id (filter f ts)).
Proof.
  induction ts as [|a ts IH]; cbn; intro H; [constructor | ].
  inversion H as [|x l Hn Hd]; subst.
  destruct (f a); cbn; [ | auto].
  constructor; [ | auto].
  intro Hin. apply Hn. apply in_map_iff in Hin.
  destruct Hin as (u & Hu & Hin). apply filter_In in Hin.
  apply in_map_iff. exists u. tauto.
Qed.

(** X7: at every moment of the life of an instance at most one timer of the
    tooltip is pending, and it is the one whose handle [_timeout] holds:
    [handleTogglePopover] always replaces the timer before it. *)
Theorem tooltip_single_timer (p : Props) (r : Rect) (t0 : Z) (w : World) :
  reaches (mount p r t0) w ->
  (List.length (filter is_popover (timers w)) <= 1)%nat /\
  forall t, In t (timers w) -> is_popover t = true ->
            timeout_ w = Some (timer_id t).
Proof.
  intro Hr.
  pose proof (tooltip_inv_reaches _ _ (tooltip_inv_mount p r t0) Hr) as [H1 H2 H3].
  split; [ | exact H3].
  pose proof (NoDup_filter_ids is_popover _ H2) as Hn.
  assert (Hall : forall u, In u (filter is_popover (timers w)) ->
                           timeout_ w = Some (timer_id u)).
  { intros u Hu. apply filter_In in Hu. apply H3; tauto. }
  destruct (filter is_popover (timers w)) as [ | a [ | b l]]; cbn; try lia.
  exfalso.
  pose proof (Hall a (or_introl eq_refl)) as Ea.
  pose proof (Hall b (or_intror (or_introl eq_refl))) as Eb.
  cbn in Hn. inversion Hn as [ | x l' Hx Hd]; subst.
  apply Hx. left. congruence.
Qed.

(** X7, the witness: the pointer enters, an arrow is pressed, the pointer
    leaves, the first timer fires. *)
Lemma tooltip_single_timer_witness :
  let w := acts [Dispatch MouseEnter; Dispatch (KeyDown "ArrowRight");
                 Dispatch MouseLeave; Fire (mkTimer 2 50 KeyDownExpired)]
             (mount example_props example_rect 0) in
  (List.length (filter is_popover (timers w)) <= 1)%nat /\
  forall t, In t (timers w) -> is_popover t = true ->
            timeout_ w = Some (timer_id t).
Proof.
  intro w. apply (tooltip_single_timer example_props example_rect 0 w).
  subst w. cbn [acts fold_left].
  apply reaches_act.
  - apply reaches_act; [ | exact I].
    apply reaches_act; [ | exact I].
    apply reaches_act; [ | exact I].
    apply reaches_start.
  - vm_compute. tauto.
Defined.

(** ** The tooltip follows the last request *)

Lemma no_elements {A : Type} (l : list A) :
  (forall x, In x l -> False) -> l = [].
Proof.
  destruct l as [ | a l]; [reflexivity | ]. intro H.
  exfalso. apply (H a). left. reflexivity.
Qed.

(** With no key input in flight, [handleTogglePopover] leaves its own timer
    alone in the queue. *)
Lemma toggle_timers isOpen delay w :
  tooltip_inv w -> popover_only w ->
  timers (handleTogglePopover isOpen delay w)
  = [mkTimer (next_timer w) (now w + Z.max delay 0) (PopoverTimeout isOpen)] /\
  timeout_ (handleTogglePopover isOpen delay w) = Some (next_timer w) /\
  state (handleTogglePopover isOpen delay w) = state w /\
  alive (handleTogglePopover isOpen delay w) = alive w /\
  now (handleTogglePopover isOpen delay w) = now w /\
  same_interaction w (handleTogglePopover isOpen delay w).
Proof.
  intros Hi Hp.
  assert (E : timers match timeout_ w with
                     | Some id => clearTimeout id w
                     | None => w
                     end = []).
  { apply no_elements. intros t Ht.
    pose proof (tooltip_cleared w t Hi Ht) as Hn.
    assert (Hin : In t (timers w)).
    { destruct (timeout_ w); [ | exact Ht].
      unfold clearTimeout in Ht. wsimpl in Ht. apply filter_In in Ht. tauto. }
    destruct (Hp t Hin) as [b Hb]. unfold is_popover in Hn.
    rewrite Hb in Hn. discriminate Hn. }
  unfold handleTogglePopover.
  destruct isOpen; cbn [negb]; destruct (timeout_ w);
    unfold clearTimeout, setTimeout in *; wsimpl; wsimpl in E; rewrite E;
    repeat split.
Qed.

(** A queue that holds one timer of the tooltip. *)
Lemma single_timer_waits (T : Z) (fuel : nat) (w : World) (t : Timer) :
  timers w = [t] -> T < deadline t ->
  advance fuel T w = Some (set_now (Z.max (now w) T) w).
Proof.
  intros Ht Hlt.
  assert (E : next_due T w = None).
  { unfold next_due. rewrite Ht. cbn [earliest].
    destruct (Z.leb_spec (deadline t) T); [lia | reflexivity]. }
  destruct fuel; cbn [advance]; rewrite E; reflexivity.
Qed.

Lemma single_timer_fires (T : Z) (fuel : nat) (w : World) (t : Timer) b :
  timers w = [t] -> callback t = PopoverTimeout b -> alive w = true ->
  deadline t <= T -> (1 <= fuel)%nat ->
  exists w', advance fuel T w = Some w' /\
             isHovered (state w') = b /\ timers w' = [] /\
             timeout_ w' = None /\ alive w' = true /\
             same_interaction w w' /\ next_timer w' = next_timer w /\
             now w' = Z.max (Z.max (now w) (deadline t)) T.
Proof.
  intros Ht Hcb Ha Hle Hfuel.
  destruct fuel as [ | fuel]; [lia | ].
  assert (E : next_due T w = Some t).
  { unfold next_due. rewrite Ht. cbn [earliest].
    destruct (Z.leb_spec (deadline t) T); [reflexivity | lia]. }
  cbn [advance]. rewrite E.
  assert (F : fire t w
              = set_timeout_ None
                  (set_state (mkState (st_value (state w)) b (isSliding (state w)))
                     (set_now (Z.max (now w) (deadline t))
                        (set_timers [] (next_timer w) w)))).
  { unfold fire. rewrite Hcb. cbn [run_callback].
    unfold popoverTimeout, setState, done, clearTimeout. wsimpl.
    rewrite Ha, Ht. cbn [filter]. rewrite Nat.eqb_refl. reflexivity. }
  rewrite F.
  match goal with |- context [advance fuel T ?x] => set (w1 := x) end.
  assert (E1 : next_due T w1 = None) by reflexivity.
  exists (set_now (Z.max (now w1) T) w1).
  split; [destruct fuel; cbn [advance]; rewrite E1; reflexivity | ].
  subst w1. wsimpl. rewrite Ha. repeat split.
Qed.

(** A mounted instance with no key input in flight. *)
Definition quiet (w : World) : Prop :=
  alive w = true /\ tooltip_inv w /\ popover_only w.

Lemma quiet_timers w :
  quiet w ->
  timers w = [] \/ exists t b, timers w = [t] /\ callback t = PopoverTimeout b.
Proof.
  intros (_ & [H1 H2 H3] & Hp).
  destruct (timers w) as [ | a [ | b l]] eqn:E; [left; reflexivity | | ].
  - right. destruct (Hp a) as [b Hb]; [rewrite E; left; reflexivity | ].
    exists a, b. split; [reflexivity | exact Hb].
  - exfalso.
    assert (Pa : is_popover a = true).
    { destruct (Hp a) as [x Hx]; [rewrite E; left; reflexivity | ].
      unfold is_popover. rewrite Hx. reflexivity. }
    assert (Pb : is_popover b = true).
    { destruct (Hp b) as [x Hx]; [rewrite E; right; left; reflexivity | ].
      unfold is_popover. rewrite Hx. reflexivity. }
    pose proof (H3 a (or_introl eq_refl) Pa) as Ea.
    pose proof (H3 b (or_intror (or_introl eq_refl)) Pb) as Eb.
    cbn in H2. inversion H2 as [ | x l' Hx Hd]; subst.
    apply Hx. left. congruence.
Qed.

Lemma quiet_same w w' :
  alive w' = alive w -> timers w' = timers w ->
  next_timer w' = next_timer w -> timeout_ w' = timeout_ w ->
  quiet w -> quiet w'.
Proof.
  intros Ea Et En Eo (Ha & Hi & Hp). split; [congruence | split].
  - revert Hi. apply tooltip_inv_same; assumption.
  - unfold popover_only. rewrite Et. exact Hp.
Qed.

(** Time passes over a quiet instance. *)
Lemma advance_quiet (T : Z) (fuel : nat) (w : World) :
  quiet w -> (1 <= fuel)%nat ->
  exists w', advance fuel T w = Some w' /\ quiet w' /\
             now w' = Z.max (now w) T /\
             st_value (state w') = st_value (state w) /\
             calls w' = calls w.
Proof.
  intros Hq Hfuel. pose proof Hq as (Ha & Hi & Hp).
  destruct (quiet_timers w Hq) as [E | (t & b & E & Hcb)].
  - exists (set_now (Z.max (now w) T) w).
    assert (N : next_due T w = None) by (unfold next_due; rewrite E; reflexivity).
    split; [destruct fuel; cbn [advance]; rewrite N; reflexivity | ].
    split; [revert Hq; apply quiet_same; reflexivity | ].
    repeat split.
  - destruct (Z.le_gt_cases (deadline t) T) as [Hle | Hgt].
    + destruct (single_timer_fires T fuel w t b E Hcb Ha Hle Hfuel)
        as (w' & Hadv & _ & Ht' & Ho' & Ha' & Hs & Hn' & Hnow).
      exists w'. split; [exact Hadv | ].
      split; [ | split; [lia | ]].
      * split; [exact Ha' | split].
        -- destruct Hi as [H1 H2 H3].
           constructor; rewrite Ht'; [intros u [] | constructor | intros u []].
        -- unfold popover_only. rewrite Ht'. intros u [].
      * unfold same_interaction in Hs. tauto.
    + rewrite (single_timer_waits T fuel w t E) by lia.
      eexists. split; [reflexivity | ].
      split; [revert Hq; apply quiet_same; reflexivity | ].
      repeat split.
Qed.

Definition hover_event (b : bool) : Event :=
  if b then MouseEnter else MouseLeave.

Definition hover_events (es : list (Z * bool)) : list (Z * Event) :=
  map (fun e => (fst e, hover_event (snd e))) es.

(** The pointer enters or leaves a quiet instance. *)
Lemma hover_dispatch (b : bool) (w : World) :
  quiet w ->
  quiet (dispatch (hover_event b) w) /\
  timers (dispatch (hover_event b) w)
  = [mkTimer (next_timer w) (now w + Z.max 0 0) (PopoverTimeout b)] /\
  now (dispatch (hover_event b) w) = now w /\
  st_value (state (dispatch (hover_event b) w)) = st_value (state w) /\
  calls (dispatch (hover_event b) w) = calls w.
Proof.
  intros Hq. pose proof Hq as (Ha & Hi & Hp).
  assert (Hq1 : quiet (preventDefault w))
    by (revert Hq; apply quiet_same; reflexivity).
  destruct Hq1 as (_ & Hi1 & Hp1).
  pose proof (toggle_timers b 0 (preventDefault w) Hi1 Hp1)
    as (Et & Eo & Es & Eal & En & Hs).
  assert (D : dispatch (hover_event b) w
              = handleTogglePopover b 0 (preventDefault w)).
  { destruct b; cbn [hover_event dispatch]; rewrite Ha; reflexivity. }
  rewrite D. split; [ | split; [exact Et | split; [exact En | ]]].
  - split; [rewrite Eal; exact Ha | split].
    + apply tooltip_inv_handleTogglePopover, Hi1.
    + unfold popover_only. rewrite Et. intros t [<- | []]. eexists. reflexivity.
  - rewrite Es. split; [reflexivity | ].
    unfold same_interaction in Hs. tauto.
Qed.

(** X8: on a mounted instance with no key input in flight, after any
    schedule of pointer enters and leaves the tooltip is as the last of them
    asked, once time has passed: open after an enter, closed after a leave.
    The value and the callbacks are left alone. *)
Theorem hover_last_request (es : list (Z * bool)) (tb : Z) (b : bool)
    (T : Z) (fuel : nat) (w : World) :
  alive w = true -> tooltip_inv w -> popover_only w ->
  now w <= T -> Forall (fun e => fst e <= T) es -> tb <= T ->
  (1 <= fuel)%nat ->
  exists w',
    run_until fuel (hover_events (es ++ [(tb, b)])) T w = Some w' /\
    isHovered (state w') = b /\ timers w' = [] /\
    st_value (state w') = st_value (state w) /\ calls w' = calls w.
Proof.
  intros Ha Hi Hp Hnow Hes Htb Hfuel.
  assert (Hq : quiet w) by (split; [ | split]; assumption).
  clear Ha Hi Hp. revert w Hq Hnow.
  induction es as [ | [t b0] es IH]; intros w Hq Hnow.
  - unfold run_until, hover_events. cbn [app map run fst snd].
    destruct (advance_quiet tb fuel w Hq Hfuel)
      as (w0 & Hadv & Hq0 & Hn0 & Hv0 & Hc0).
    rewrite Hadv.
    destruct (hover_dispatch b w0 Hq0) as (Hq1 & Et & En & Hv1 & Hc1).
    destruct Hq1 as (Ha1 & _ & _).
    destruct (single_timer_fires T fuel _ _ b Et eq_refl Ha1)
      as (w' & Hadv' & Hh & Ht' & _ & _ & Hs & _); [cbn; lia | exact Hfuel | ].
    exists w'. split; [exact Hadv' | ]. split; [exact Hh | ].
    split; [exact Ht' | ]. unfold same_interaction in Hs.
    split; [ | ]; intuition congruence.
  - inversion Hes as [ | x l Hx Hl]; subst. cbn [fst] in Hx.
    unfold run_until, hover_events in *. cbn [app map run fst snd].
    destruct (advance_quiet t fuel w Hq Hfuel)
      as (w0 & Hadv & Hq0 & Hn0 & Hv0 & Hc0).
    rewrite Hadv.
    destruct (hover_dispatch b0 w0 Hq0) as (Hq1 & _ & En & Hv1 & Hc1).
    destruct (IH Hl (dispatch (hover_event b0) w0) Hq1)
      as (w' & Hrun & Hh & Ht' & Hv' & Hc'); [lia | ].
    exists w'. split; [exact Hrun | ]. split; [exact Hh | ].
    split; [exact Ht' | ]. split; congruence.
Qed.

(** X8, the witness: enter, leave at once, enter again 30 ms later. *)
Lemma hover_last_request_witness :
  exists w',
    run_until 1 (hover_events ([(0, true); (0, false)] ++ [(30, true)])) 100
      (mount example_props example_rect 0) = Some w' /\
    isHovered (state w') = true /\ timers w' = [] /\
    st_value (state w') = st_value (state (mount example_props example_rect 0)) /\
    calls w' = calls (mount example_props example_rect 0).
Proof.
  apply (hover_last_request [(0, true); (0, false)] 30 true 100 1
           (mount example_props example_rect 0)).
  - reflexivity.
  - apply tooltip_inv_mount.
  - intros t [].
  - cbn. lia.
  - repeat constructor; cbn; lia.
  - lia.
  - lia.
Defined.

(** How long the tooltip stays after a drag ends. *)
Definition close_delay (k : Pointer) : Z :=
  match k with
  | Mouse => 0
  | Touch => 250
  end.

(** The world in which the end handlers call [handleTogglePopover]. *)
Definition released (k : Pointer) : Handler := fun w =>
  let w := preventDefault w in
  let w := removeEventListener (move_listener k) w in
  let w := removeEventListener (end_listener k) w in
  let w := invoke (onStop (props w)) (OnStop (st_value (state w))) w in
  setState (fun s => mkState (st_value s) (isHovered s) false) done w.

Lemma end_released (k : Pointer) (w : World) :
  disabled (props w) = false -> registered (end_listener k) w = true ->
  dispatch (end_of k) w = handleTogglePopover false (close_delay k) (released k w).
Proof.
  intros Hd He.
  destruct k; cbn [dispatch end_of]; cbn [end_listener] in He; rewrite He;
    unfold handleMouseUp, handleTouchEnd; rewrite Hd; reflexivity.
Qed.

Lemma released_quiet (k : Pointer) (w : World) :
  quiet w ->
  quiet (released k w) /\ now (released k w) = now w /\
  isHovered (state (released k w)) = isHovered (state w).
Proof.
  intros Hq. pose proof Hq as (Ha & _).
  unfold released, setState, invoke, done, removeEventListener, preventDefault.
  wsimpl. destruct (onStop (props w)); wsimpl; rewrite Ha; wsimpl;
    (split; [revert Hq; apply quiet_same; reflexivity | split; reflexivity]).
Qed.

(** X9: when a drag ends on an enabled instance with no key input in
    flight, the tooltip stays as it is for 250 ms after a touch and closes
    then; after a mouse button is released it closes as soon as time
    passes. *)
Theorem drag_end_closes_tooltip (k : Pointer) (T : Z) (fuel : nat) (w : World) :
  alive w = true -> disabled (props w) = false ->
  registered (end_listener k) w = true ->
  tooltip_inv w -> popover_only w -> (1 <= fuel)%nat ->
  exists w',
    advance fuel T (dispatch (end_of k) w) = Some w' /\
    isHovered (state w')
    = (if T <? now w + close_delay k then isHovered (state w) else false).
Proof.
  intros Ha Hd He Hi Hp Hfuel.
  assert (Hq : quiet w) by (split; [ | split]; assumption).
  rewrite (end_released k w Hd He).
  destruct (released_quiet k w Hq) as ((Ha3 & Hi3 & Hp3) & Hn3 & Hh3).
  pose proof (toggle_timers false (close_delay k) (released k w) Hi3 Hp3)
    as (Et & _ & Es & Eal & En & _).
  assert (Hdl : Z.max (close_delay k) 0 = close_delay k) by (destruct k; reflexivity).
  rewrite Hdl, Hn3 in Et.
  destruct (Z.ltb_spec T (now w + close_delay k)) as [Hlt | Hge].
  - rewrite (single_timer_waits T fuel _ _ Et) by exact Hlt.
    eexists. split; [reflexivity | ]. wsimpl. rewrite Es. exact Hh3.
  - destruct (single_timer_fires T fuel _ _ false Et eq_refl)
      as (w' & Hadv & Hh & _); [congruence | exact Hge | exact Hfuel | ].
    exists w'. split; [exact Hadv | exact Hh].
Qed.

(** X9, the witness: a touch that ends 10 ms after it began, seen 100 ms
    later. *)
Lemma drag_end_closes_tooltip_witness :
  exists w',
    advance 1 110 (dispatch (end_of Touch)
                     (set_now 10 (dispatch (TouchStart (70 # 1))
                                    (mount example_props example_rect 0))))
    = Some w' /\
    isHovered (state w') = true.
Proof.
  apply (drag_end_closes_tooltip Touch 110 1
           (set_now 10 (dispatch (TouchStart (70 # 1))
                          (mount example_props example_rect 0)))).
  - reflexivity.
  - reflexivity.
  - reflexivity.
  - constructor; cbn; [intros t [] | constructor | intros t []].
  - intros t [].
  - lia.
Defined.

(** ** The values a drag reports *)

From Stdlib Require Import Sorted.

(** The values of a run that differ ([!==]) from the value before them. *)
Fixpoint changes (cur : jsval) (vs : list jsval) : list jsval :=
  match vs with
  | [] => []
  | v :: rest =>
      if strict_neq cur v then v :: changes v rest else changes cur rest
  end.

Definition move_events (k : Pointer) (moves : list (Z * Q)) : list (Z * Event) :=
  map (fun m => (fst m, move_of k (snd m))) moves.

(** A move on an enabled, mounted instance whose listener is registered. *)
Lemma move_reports (k : Pointer) (clientX : Q) (w : World) :
  alive w = true -> disabled (props w) = false -> onSlide (props w) = true ->
  registered (move_listener k) w = true ->
  let v := calculateValue (props w) (slider_current w) clientX in
  let w' := dispatch (move_of k clientX) w in
  same_drag w w' /\ timers w' = timers w /\
  props w' = props w /\ slider_current w' = slider_current w /\
  stops w' = stops w /\
  map snd (slides w')
  = map snd (slides w) ++ (if strict_neq (st_value (state w)) v then [v] else []) /\
  st_value (state w')
  = (if strict_neq (st_value (state w)) v then v else st_value (state w)).
Proof.
  intros Ha Hd Hs Hm v w'. subst w'.
  assert (E : dispatch (move_of k clientX) w =
              match k with
              | Mouse => handleMouseMove clientX w
              | Touch => handleTouchMove clientX w
              end).
  { destruct k; cbn [dispatch move_of]; cbn [move_listener] in Hm;
      rewrite Hm; reflexivity. }
  rewrite E. clear E.
  unfold handleMouseMove, handleTouchMove.
  destruct k; rewrite Hd; unfold preventDefault, invoke, setState, done; wsimpl;
    rewrite Hs; wsimpl; rewrite Ha; fold v;
    (destruct (strict_neq (st_value (state w)) v);
     [ unfold same_drag, stops, slides; wsimpl;
       rewrite !flat_map_app, ?map_app; cbn [flat_map snd fst app map];
       rewrite ?app_nil_r; repeat split
     | unfold same_drag, stops, slides; wsimpl;
       rewrite ?app_nil_r; repeat split ]).
Qed.

Lemma last_cons_default {A : Type} (v d : A) (l : list A) :
  last (v :: l) d = last l v.
Proof.
  revert v d. induction l as [ | a l IH]; intros v d; [reflexivity | ].
  change (last (v :: a :: l) d) with (last (a :: l) d).
  rewrite (IH a d), (IH a v). reflexivity.
Qed.

Lemma last_changes cur v rest :
  last (changes cur (v :: rest)) cur
  = last (changes (if strict_neq cur v then v else cur) rest)
      (if strict_neq cur v then v else cur).
Proof.
  cbn [changes]. destruct (strict_neq cur v); [ | reflexivity].
  apply last_cons_default.
Qed.

(** The moves of a drag, with the time that passes between them. *)
Lemma moves_report (k : Pointer) (fuel : nat) (moves : list (Z * Q)) (w : World) :
  alive w = true -> disabled (props w) = false -> onSlide (props w) = true ->
  registered (move_listener k) w = true ->
  popover_only w -> (List.length (timers w) <= fuel)%nat ->
  exists w',
    run fuel (move_events k moves) w = Some w' /\
    map snd (slides w')
    = map snd (slides w)
      ++ changes (st_value (state w))
           (map (fun m => calculateValue (props w) (slider_current w) (snd m))
              moves) /\
    st_value (state w')
    = last (changes (st_value (state w))
              (map (fun m => calculateValue (props w) (slider_current w) (snd m))
                 moves))
        (st_value (state w)) /\
    stops w' = stops w.
Proof.
  revert w. induction moves as [ | [t x] moves IH];
    intros w Ha Hd Hs Hm Hpo Hlen.
  - exists w. cbn. rewrite app_nil_r. repeat split.
  - unfold move_events in *. cbn [map run fst snd].
    destruct (advance_popover_only t fuel w Hpo Hlen)
      as (w1 & Hadv & Hsame & Hpo1 & Hl1).
    rewrite Hadv.
    destruct Hsame as (Sp & Sa & Sc & Sv & _ & Sl & Scalls & _).
    assert (Hm1 : registered (move_listener k) w1 = true)
      by (unfold registered in *; rewrite Sl; exact Hm).
    destruct (move_reports k x w1)
      as ((Da & _ & Dl) & Dt & Dp & Dc & Dst & Dsl & Dv); try congruence.
    set (w2 := dispatch (move_of k x) w1) in *.
    destruct (IH w2) as (w' & Hrun & Hsl & Hv & Hst); try congruence.
    + unfold registered in *. rewrite Dl. exact Hm1.
    + unfold popover_only. rewrite Dt. exact Hpo1.
    + rewrite Dt. lia.
    + exists w'. split; [exact Hrun | ].
      assert (Esl : slides w1 = slides w) by (unfold slides; rewrite Scalls; reflexivity).
      assert (Est : stops w1 = stops w) by (unfold stops; rewrite Scalls; reflexivity).
      rewrite Dp, Dc, Sp, Sc in *. rewrite Sv in *.
      set (v := calculateValue (props w) (slider_current w) x) in *.
      split; [ | split].
      * rewrite Hsl, Dsl, Dv, Esl, <- app_assoc. f_equal.
        cbn [changes]. destruct (strict_neq (st_value (state w)) v); reflexivity.
      * rewrite Hv, Dv. symmetry. apply last_changes.
      * congruence.
Qed.

(** X10: over the moves of a drag on an enabled, mounted instance, [onSlide]
    is called with exactly the computed values that differ ([!==]) from the
    value held just before, in order; [onStop] is not called; the value
    held at the end is the last one reported. *)
Theorem drag_reports_changes (k : Pointer) (fuel : nat) (moves : list (Z * Q))
    (w : World) :
  alive w = true -> disabled (props w) = false -> onSlide (props w) = true ->
  registered (move_listener k) w = true ->
  popover_only w -> (List.length (timers w) <= fuel)%nat ->
  exists w',
    run fuel (move_events k moves) w = Some w' /\
    map snd (slides w')
    = map snd (slides w)
      ++ changes (st_value (state w))
           (map (fun m => calculateValue (props w) (slider_current w) (snd m))
              moves) /\
    st_value (state w')
    = last (changes (st_value (state w))
              (map (fun m => calculateValue (props w) (slider_current w) (snd m))
                 moves))
        (st_value (state w)) /\
    stops w' = stops w.
Proof. apply moves_report. Qed.

(** A drag under way: the mouse went down at 70 of 100. *)
Definition drag_example : World :=
  dispatch (MouseDown 0 (70 # 1)) (mount example_props example_rect 0).

(** X10, the witness: the pointer rests, moves on, rests again. *)
Lemma drag_reports_changes_witness :
  exists w',
    run 0 (move_events Mouse [(5, 70 # 1); (9, 40 # 1); (12, 41 # 1)]) drag_example
    = Some w' /\
    map snd (slides w') = [JInt 6; JInt 4] /\
    st_value (state w') = JInt 4 /\
    stops w' = [].
Proof.
  apply (drag_reports_changes Mouse 0 [(5, 70 # 1); (9, 40 # 1); (12, 41 # 1)]
           drag_example).
  - reflexivity.
  - reflexivity.
  - reflexivity.
  - reflexivity.
  - intros t [].
  - cbn. lia.
Defined.

(** The direction of a sweep: to the right, or to the left. *)
Definition along (rightwards : bool) (x y : Q) : Prop :=
  if rightwards then (x <= y)%Q else (y <= x)%Q.

Definition strictly (rightwards : bool) (a b : Z) : Prop :=
  if rightwards then a < b else b < a.

Definition weakly (rightwards : bool) (a b : Z) : Prop :=
  if rightwards then a <= b else b <= a.

Lemma changes_sorted (rightwards : bool) (c : Z) (l : list Z) :
  StronglySorted (weakly rightwards) (c :: l) ->
  exists vs, changes (JInt c) (map JInt l) = map JInt vs /\
             StronglySorted (strictly rightwards) (c :: vs).
Proof.
  revert c. induction l as [ | a l IH]; intros c H.
  - exists []. split; [reflexivity | ]. constructor; constructor.
  - inversion H as [ | x l' Hs Hf]; subst.
    inversion Hf as [ | y l'' Hca Hcl]; subst.
    cbn [map changes strict_neq].
    destruct (Z.eqb_spec c a) as [<- | Hne]; cbn [negb].
    + apply IH. constructor; [ | exact Hcl].
      inversion Hs; assumption.
    + destruct (IH a Hs) as (vs & E & Hvs).
      exists (a :: vs). split; [cbn [map]; rewrite E; reflexivity | ].
      constructor; [exact Hvs | ].
      assert (Hlt : strictly rightwards c a)
        by (destruct rightwards; cbn in *; lia).
      constructor; [exact Hlt | ].
      inversion Hvs as [ | z l3 _ Hav]; subst.
      eapply Forall_impl; [ | exact Hav].
      intros v Hv. destruct rightwards; cbn in *; lia.
Qed.

Lemma changes_first cur v rest :
  changes cur (v :: rest)
  = (if strict_neq cur v then [v] else []) ++ changes v rest.
Proof.
  cbn [changes]. destruct (strict_neq cur v) eqn:E; [reflexivity | ].
  cbn [app]. f_equal.
  destruct cur, v; try discriminate E; try reflexivity.
  cbn in E. apply negb_false_iff, Z.eqb_eq in E. congruence.
Qed.

(** The values of a sweep over a track with a width. *)
Lemma sweep_values (rightwards : bool) (p : Props) (rect : Rect) (xs : list Q) :
  (left rect < right rect)%Q -> 1 <= stopCount p -> bounds_ordered p ->
  StronglySorted (along rightwards) xs ->
  exists l, map (calculateValue p (Some rect)) xs = map JInt l /\
            StronglySorted (weakly rightwards) l.
Proof.
  intros Hrect Hn Hb Hs.
  exists (map (fun x => bounded_int p (raw_value p rect x)) xs). split.
  - rewrite map_map. apply map_ext. intro x.
    rewrite calculateValue_raw by exact Hrect. apply bounded_JInt.
  - induction Hs as [ | x xs Hs IH Hf]; cbn [map]; constructor; [exact IH | ].
    rewrite Forall_forall in *. intros v Hv. apply in_map_iff in Hv.
    destruct Hv as (y & <- & Hy). specialize (Hf y Hy).
    destruct rightwards; cbn in *;
      apply bounded_int_mono; try assumption;
      apply raw_value_mono; assumption.
Qed.

(** X11: a sweep of the pointer in one direction over a track with a width
    (at least one stop, bounds in order) gives [onSlide] integers that
    strictly rise when the sweep goes right and strictly fall when it goes
    left: no value is reported twice. *)
Theorem sweep_is_strict (rightwards : bool) (k : Pointer) (fuel : nat)
    (moves : list (Z * Q)) (rect : Rect) (w : World) :
  alive w = true -> disabled (props w) = false -> onSlide (props w) = true ->
  registered (move_listener k) w = true ->
  popover_only w -> (List.length (timers w) <= fuel)%nat ->
  slider_current w = Some rect -> (left rect < right rect)%Q ->
  1 <= stopCount (props w) -> bounds_ordered (props w) ->
  StronglySorted (along rightwards) (map snd moves) ->
  exists w' vs,
    run fuel (move_events k moves) w = Some w' /\
    map snd (slides w') = map snd (slides w) ++ map JInt vs /\
    StronglySorted (strictly rightwards) vs.
Proof.
  intros Ha Hd Hs Hm Hpo Hlen Hc Hrect Hn Hb Hsorted.
  destruct (moves_report k fuel moves w Ha Hd Hs Hm Hpo Hlen)
    as (w' & Hrun & Hsl & _).
  exists w'.
  destruct (sweep_values rightwards (props w) rect (map snd moves)
              Hrect Hn Hb Hsorted) as (l & El & Hl).
  rewrite Hc in Hsl.
  assert (Em : map (fun m : Z * Q => calculateValue (props w) (Some rect) (snd m))
                 moves
               = map JInt l).
  { rewrite <- El, map_map. reflexivity. }
  rewrite Em in Hsl.
  destruct l as [ | a l].
  - exists []. split; [exact Hrun | ]. split; [exact Hsl | constructor].
  - cbn [map] in Hsl. rewrite changes_first in Hsl.
    destruct (changes_sorted rightwards a l Hl) as (vs & E & Hvs).
    rewrite E in Hsl.
    destruct (strict_neq (st_value (state w)) (JInt a)).
    + exists (a :: vs). split; [exact Hrun | ]. split; [exact Hsl | exact Hvs].
    + exists vs. split; [exact Hrun | ]. split; [exact Hsl | ].
      inversion Hvs; assumption.
Qed.

(** X11, the witness: the pointer of the drag goes left from 70 to 5. *)
Lemma sweep_is_strict_witness :
  exists w' vs,
    run 0 (move_events Mouse [(5, 62 # 1); (9, 40 # 1); (12, 38 # 1); (20, 5 # 1)])
      drag_example = Some w' /\
    map snd (slides w') = map snd (slides drag_example) ++ map JInt vs /\
    StronglySorted (strictly false) vs.
Proof.
  apply (sweep_is_strict false Mouse 0
           [(5, 62 # 1); (9, 40 # 1); (12, 38 # 1); (20, 5 # 1)]
           example_rect drag_example).
  - reflexivity.
  - reflexivity.
  - reflexivity.
  - reflexivity.
  - intros t [].
  - cbn. lia.
  - reflexivity.
  - reflexivity.
  - cbn. lia.
  - unfold bounds_ordered. cbn. lia.
  - cbn [map snd].
    repeat (constructor; [ | repeat (constructor; [vm_compute; discriminate | ]);
                            constructor]).
    constructor.
Defined.

(** ** The value is always a stop *)

Lemma raw_value_range (p : Props) (rect : Rect) (x : Q) :
  (left rect < right rect)%Q -> 1 <= stopCount p ->
  0 <= raw_value p rect x <= stopCount p - 1.
Proof.
  intros Hrect Hn.
  assert (Hw : (0 < right rect - left rect)%Q).
  { rewrite <- (Qplus_opp_r (left rect)). apply Qplus_lt_l. exact Hrect. }
  change (raw_value p rect x)
    with (round (Math_min (Math_max 0 (x - left rect)) (right rect - left rect)
                 / (right rect - left rect) * inject_Z (stopCount p - 1))).
  apply round_range, scaled_range; [exact Hw | | exact Hn].
  rewrite clampedX_spec. apply clamp_range, Qlt_le_weak, Hw.
Qed.

Lemma bounded_int_range (p : Props) (a : Z) :
  bounds_wf p -> 0 <= a <= stopCount p - 1 ->
  0 <= bounded_int p a <= stopCount p - 1 /\ within_bounds p (bounded_int p a).
Proof.
  unfold bounds_wf, bounded_int, within_bounds. intros (Hmin & Hmax & Hord) Ha.
  destruct (maxValue p) as [M | ]; destruct (minValue p) as [m | ];
    repeat match goal with
           | |- context [?x <? ?y] => destruct (Z.ltb_spec x y)
           end; repeat split; lia.
Qed.

(** Props a parent may pass: at least one stop, bounds that are stops in
    order, a value that is a stop within the bounds. *)
Definition props_wf (p : Props) : Prop :=
  1 <= stopCount p /\ bounds_wf p /\
  exists v, value p = JInt v /\ 0 <= v <= stopCount p - 1 /\ within_bounds p v.

Definition wf_action (a : Action) : Prop :=
  match a with
  | Dispatch (ReceiveProps nextProps) => props_wf nextProps
  | _ => True
  end.

(** The value held is a stop within the bounds, and while the instance is
    mounted its element has a width. *)
Definition stop_inv (w : World) : Prop :=
  1 <= stopCount (props w) /\ bounds_wf (props w) /\
  (exists v, st_value (state w) = JInt v /\
             0 <= v <= stopCount (props w) - 1 /\ within_bounds (props w) v) /\
  (alive w = true ->
   exists r, slider_current w = Some r /\ (left r < right r)%Q).

Definition keeps_stop (w w' : World) : Prop := stop_inv w -> stop_inv w'.

Lemma stop_inv_same w w' :
  props w' = props w -> st_value (state w') = st_value (state w) ->
  alive w' = alive w -> slider_current w' = slider_current w ->
  keeps_stop w w'.
Proof.
  intros Ep Ev Ea Ec (H1 & H2 & H3 & H4).
  unfold stop_inv. rewrite Ep, Ev, Ea, Ec. tauto.
Qed.

Lemma stop_inv_handleTogglePopover isOpen delay w :
  keeps_stop w (handleTogglePopover isOpen delay w).
Proof.
  apply stop_inv_same;
    unfold handleTogglePopover, clearTimeout, setTimeout;
    destruct isOpen; cbn [negb]; destruct (timeout_ w); reflexivity.
Qed.

Lemma stop_inv_invoke provided c w : keeps_stop w (invoke provided c w).
Proof.
  unfold invoke. destruct provided; [ | intro H; exact H].
  apply stop_inv_same; reflexivity.
Qed.

(** A [setState] that stores a stop. *)
Lemma stop_inv_setState (v : jsval) (h : State -> bool) (callback : Handler) w :
  (forall w', keeps_stop w' (callback w')) ->
  (alive w = true -> stop_inv w ->
   exists z, v = JInt z /\ 0 <= z <= stopCount (props w) - 1 /\
             within_bounds (props w) z) ->
  keeps_stop w (setState (fun s => mkState v (h s) (isSliding s)) callback w).
Proof.
  intros Hk Hv H. unfold setState. destruct (alive w) eqn:Ha; [ | exact H].
  apply Hk. destruct (Hv eq_refl H) as (z & -> & Hz).
  destruct H as (H1 & H2 & _ & H4).
  unfold stop_inv. wsimpl.
  split; [exact H1 | split; [exact H2 | split; [ | exact H4]]].
  exists z. split; [reflexivity | exact Hz].
Qed.

(** A [setState] that leaves the value alone. *)
Lemma stop_inv_setState_flags (f : State -> State) (callback : Handler) w :
  (forall s, st_value (f s) = st_value s) ->
  (forall w', keeps_stop w' (callback w')) ->
  keeps_stop w (setState f callback w).
Proof.
  intros Hf Hk H. unfold setState. destruct (alive w) eqn:Ha; [ | exact H].
  apply Hk. revert H. apply stop_inv_same; wsimpl; auto.
Qed.

Lemma keeps_stop_refl w : keeps_stop w w.
Proof. intro H. exact H. Qed.

Lemma stop_inv_keyInput_func u w :
  keeps_stop w (handleDebouncedKeyInput_func u w).
Proof.
  intro H. unfold handleDebouncedKeyInput_func.
  apply stop_inv_invoke, stop_inv_handleTogglePopover, H.
Qed.

Lemma stop_inv_handleDebouncedKeyInput w :
  keeps_stop w (handleDebouncedKeyInput w).
Proof.
  unfold handleDebouncedKeyInput.
  apply R_debounced;
    try (intros a w'; apply stop_inv_keyInput_func);
    unfold keeps_stop; try tauto; intros; assumption.
Qed.

Lemma stop_inv_keyInputExpired w : keeps_stop w (keyInputExpired w).
Proof.
  unfold keyInputExpired.
  apply R_timerExpired;
    try (intros a w'; apply stop_inv_keyInput_func);
    unfold keeps_stop; try tauto; intros; assumption.
Qed.

Lemma stop_inv_keyDown_func key w :
  keeps_stop w (handleThrottledKeyDown_func key w).
Proof.
  intro H. unfold handleThrottledKeyDown_func.
  assert (K : forall value w',
             keeps_stop w'
               (invoke (onSlide (props (handleDebouncedKeyInput w')))
                  (OnSlide value) (handleDebouncedKeyInput w'))).
  { intros value w' H'.
    apply stop_inv_invoke, stop_inv_handleDebouncedKeyInput, H'. }
  destruct (disabled (props w)).
  - revert H. apply stop_inv_setState_flags; [reflexivity | ].
    intro w'. apply stop_inv_handleTogglePopover.
  - destruct (_ || _)%bool; [ | destruct (_ || _)%bool; [ | exact H]];
      (revert H; apply stop_inv_setState with (h := fun _ => true);
       [apply K | ]);
      intros _ (Hn & (Hmin & Hmax & Hord) & (v & Ev & Hv & Hlo & Hhi) & _);
      rewrite Ev; unfold js_add, js_sub, js_gt, js_lt, within_bounds in *;
      destruct (maxValue (props w)) as [M | ];
      destruct (minValue (props w)) as [m | ];
      cbn [prop_val ToNumber option_map of_number];
      repeat match goal with
             | |- context [?a <? ?b] => destruct (Z.ltb_spec a b)
             end;
      eexists; (split; [reflexivity | ]); repeat split; lia.
Qed.

Lemma stop_inv_handleThrottledKeyDown key w :
  keeps_stop w (handleThrottledKeyDown key w).
Proof.
  unfold handleThrottledKeyDown.
  apply R_debounced;
    try (intros a w'; apply stop_inv_keyDown_func);
    unfold keeps_stop; try tauto; intros; assumption.
Qed.

Lemma stop_inv_keyDownExpired w : keeps_stop w (keyDownExpired w).
Proof.
  unfold keyDownExpired.
  apply R_timerExpired;
    try (intros a w'; apply stop_inv_keyDown_func);
    unfold keeps_stop; try tauto; intros; assumption.
Qed.

Lemma stop_inv_hosts l w :
  keeps_stop w (preventDefault w) /\
  keeps_stop w (addEventListener l w) /\
  keeps_stop w (removeEventListener l w).
Proof.
  split; [ | split].
  - apply stop_inv_same; reflexivity.
  - unfold addEventListener. destruct (existsb _ _); [apply keeps_stop_refl | ].
    apply stop_inv_same; reflexivity.
  - apply stop_inv_same; reflexivity.
Qed.

(** The value a move stores. *)
Lemma stop_inv_calculateValue (clientX : Q) (w : World) :
  alive w = true -> stop_inv w ->
  exists z, calculateValue (props w) (slider_current w) clientX = JInt z /\
            0 <= z <= stopCount (props w) - 1 /\ within_bounds (props w) z.
Proof.
  intros Ha (Hn & Hb & _ & Hr). destruct (Hr Ha) as (r & -> & Hrect).
  rewrite calculateValue_raw by exact Hrect. rewrite bounded_JInt.
  eexists. split; [reflexivity | ].
  apply bounded_int_range; [exact Hb | ].
  apply raw_value_range; assumption.
Qed.

Lemma invoke_frame provided c w :
  props (invoke provided c w) = props w /\
  alive (invoke provided c w) = alive w /\
  slider_current (invoke provided c w) = slider_current w.
Proof. unfold invoke. destruct provided; repeat split. Qed.

Lemma stop_inv_moves clientX w :
  keeps_stop w (handleMouseMove clientX w) /\
  keeps_stop w (handleTouchMove clientX w).
Proof.
  unfold handleMouseMove, handleTouchMove.
  destruct (disabled (props w)); [split; apply keeps_stop_refl | ].
  assert (P : keeps_stop w (preventDefault w)) by apply (stop_inv_hosts Lmousemove).
  split; intro H; (destruct (strict_neq _ _); [ | apply P, H]).
  - apply stop_inv_setState with (h := fun _ => true).
    + intro. apply keeps_stop_refl.
    + intros Ha' H'.
      destruct (invoke_frame (onSlide (props (preventDefault w)))
                  (OnSlide (calculateValue (props (preventDefault w))
                              (slider_current (preventDefault w)) clientX))
                  (preventDefault w)) as (Ep & Ea & _).
      rewrite Ep. rewrite Ea in Ha'.
      apply (stop_inv_calculateValue clientX (preventDefault w) Ha').
      apply P, H.
    + apply stop_inv_invoke, P, H.
  - apply stop_inv_setState with (h := isHovered).
    + intro. apply keeps_stop_refl.
    + intros Ha' H'.
      destruct (invoke_frame (onSlide (props (preventDefault w)))
                  (OnSlide (calculateValue (props (preventDefault w))
                              (slider_current (preventDefault w)) clientX))
                  (preventDefault w)) as (Ep & Ea & _).
      rewrite Ep. rewrite Ea in Ha'.
      apply (stop_inv_calculateValue clientX (preventDefault w) Ha').
      apply P, H.
    + apply stop_inv_invoke, P, H.
Qed.

Lemma stop_inv_starts clientX w :
  keeps_stop w (handleMouseMove clientX
                  (setState (fun s => mkState (st_value s) true true) done
                     (addEventListener Lmouseup
                        (addEventListener Lmousemove (preventDefault w))))) /\
  keeps_stop w (handleTouchMove clientX
                  (setState (fun s => mkState (st_value s) true true) done
                     (addEventListener Ltouchend
                        (addEventListener Ltouchmove (preventDefault w))))).
Proof.
  split; intro H; apply stop_inv_moves;
    (apply stop_inv_setState_flags;
     [reflexivity | intro; apply keeps_stop_refl | ]);
    apply stop_inv_hosts, stop_inv_hosts, (stop_inv_hosts Lmousemove), H.
Qed.

Lemma stop_inv_ends delay l1 l2 w :
  keeps_stop w
    (handleTogglePopover false delay
       (setState (fun s => mkState (st_value s) (isHovered s) false) done
          (invoke (onStop (props (removeEventListener l2
                                    (removeEventListener l1 (preventDefault w)))))
             (OnStop (st_value (state (removeEventListener l2
                                         (removeEventListener l1
                                            (preventDefault w))))))
             (removeEventListener l2
                (removeEventListener l1 (preventDefault w)))))).
Proof.
  intro H. apply stop_inv_handleTogglePopover.
  apply stop_inv_setState_flags;
    [reflexivity | intro; apply keeps_stop_refl | ].
  apply stop_inv_invoke.
  apply stop_inv_hosts, stop_inv_hosts, (stop_inv_hosts Lmousemove), H.
Qed.

Lemma strict_neq_false a b : strict_neq a b = false -> a = b.
Proof.
  destruct a, b; cbn; intro E; try discriminate E; try reflexivity.
  apply negb_false_iff, Z.eqb_eq in E. congruence.
Qed.

Lemma stop_inv_dispatch e w :
  wf_action (Dispatch e) -> keeps_stop w (dispatch e w).
Proof.
  intros He H. destruct e; cbn [dispatch];
    match goal with
    | |- stop_inv (if ?c then _ else _) => destruct c eqn:Ec; [ | exact H]
    end.
  - unfold handleMouseDown. destruct (disabled _); [exact H | ].
    destruct (_ || _)%bool; [exact H | ].
    apply stop_inv_starts, H.
  - apply stop_inv_moves, H.
  - unfold handleMouseUp. destruct (disabled _); [exact H | ].
    apply stop_inv_ends, H.
  - unfold handleTouchStart. destruct (disabled _); [exact H | ].
    apply stop_inv_starts, H.
  - apply stop_inv_moves, H.
  - unfold handleTouchEnd. destruct (disabled _); [exact H | ].
    apply stop_inv_ends, H.
  - unfold handleKeyDown. destruct (_ || _)%bool; [exact H | ].
    apply stop_inv_handleThrottledKeyDown, (stop_inv_hosts Lmousemove), H.
  - unfold handleMouseEnter.
    apply stop_inv_handleTogglePopover, (stop_inv_hosts Lmousemove), H.
  - unfold handleMouseLeave.
    apply stop_inv_handleTogglePopover, (stop_inv_hosts Lmousemove), H.
  - cbn [wf_action] in He. destruct He as (Hn & Hb & v & Ev & Hv).
    destruct H as (_ & _ & _ & H4).
    unfold receiveProps, componentWillReceiveProps, setState, done.
    destruct (strict_neq _ _) eqn:E.
    + rewrite Ec. unfold stop_inv. wsimpl.
      split; [exact Hn | split; [exact Hb | split; [ | exact H4]]].
      exists v. split; [exact Ev | exact Hv].
    + apply strict_neq_false in E.
      unfold stop_inv. wsimpl.
      split; [exact Hn | split; [exact Hb | split; [ | exact H4]]].
      exists v. split; [congruence | exact Hv].
  - destruct H as (H1 & H2 & H3 & _).
    unfold unmount, componentWillUnmount, clearTimeout.
    destruct (timeout_ w); unfold stop_inv; wsimpl;
      (split; [exact H1 | split; [exact H2 | split; [exact H3 | ]]]);
      intro F; discriminate F.
Qed.

Lemma stop_inv_act a w : wf_action a -> keeps_stop w (act a w).
Proof.
  intros Ha. destruct a as [e | t | T]; cbn [act].
  - apply stop_inv_dispatch. exact Ha.
  - intro H. rewrite fire_popped.
    assert (H' : stop_inv (popped t w))
      by (revert H; apply stop_inv_same; reflexivity).
    revert H'. generalize (popped t w). intros w' H'.
    destruct (callback t); cbn [run_callback].
    + unfold popoverTimeout.
      assert (H2 : stop_inv
                     (setState (fun s => mkState (st_value s) isOpen (isSliding s))
                        done w'))
        by (revert H'; apply stop_inv_setState_flags;
            [reflexivity | intro; apply keeps_stop_refl]).
      revert H2. apply stop_inv_same; reflexivity.
    + apply stop_inv_keyInputExpired. exact H'.
    + apply stop_inv_keyDownExpired. exact H'.
  - apply stop_inv_same; reflexivity.
Qed.

(** X12: over the whole life of an instance mounted with well-formed props
    on an element with a width, whatever events arrive, whatever timers
    fire, and whatever well-formed props follow, the value held in the state
    is an integer stop of [[0, stopCount - 1]] within the bounds that are
    set. *)
Theorem value_is_a_stop (p : Props) (r : Rect) (t0 : Z) (l : list Action) :
  props_wf p -> (left r < right r)%Q -> Forall wf_action l ->
  exists v,
    st_value (state (acts l (mount p r t0))) = JInt v /\
    0 <= v <= stopCount (props (acts l (mount p r t0))) - 1 /\
    within_bounds (props (acts l (mount p r t0))) v.
Proof.
  intros (Hn & Hb & Hv) Hr Hl.
  assert (H : stop_inv (acts l (mount p r t0))).
  { induction l as [ | a l IH] using rev_ind.
    - cbn. unfold stop_inv. cbn.
      split; [exact Hn | split; [exact Hb | split; [exact Hv | ]]].
      intros _. exists r. split; [reflexivity | exact Hr].
    - apply Forall_app in Hl. destruct Hl as [Hl Ha].
      inversion Ha as [ | x l' Hx _]; subst.
      rewrite acts_snoc. apply stop_inv_act; [exact Hx | ]. apply IH. exact Hl. }
  destruct H as (_ & _ & H3 & _). exact H3.
Qed.

(** X12, the witness: a drag past the right end, arrow keys with their
    timers, new props with four stops, one more arrow. *)
Lemma value_is_a_stop_witness :
  let l := [Dispatch (MouseDown 0 (70 # 1)); Dispatch (MouseMove (400 # 1));
            Dispatch MouseUp; Dispatch (KeyDown "ArrowRight");
            Fire (mkTimer 2 50 KeyDownExpired);
            Dispatch (ReceiveProps (mkProps false (JInt 3) None (Some 3) true true 4));
            Dispatch (KeyDown "ArrowDown")] in
  exists v,
    st_value (state (acts l (mount example_props example_rect 0))) = JInt v /\
    0 <= v <= stopCount (props (acts l (mount example_props example_rect 0))) - 1 /\
    within_bounds (props (acts l (mount example_props example_rect 0))) v.
Proof.
  intro l. apply (value_is_a_stop example_props example_rect 0 l).
  - split; [cbn; lia | split; [unfold bounds_wf; cbn; lia | ]].
    exists 5. unfold within_bounds. cbn. repeat split; lia.
  - reflexivity.
  - subst l. repeat (apply Forall_cons; [exact I | ]).
    apply Forall_cons; [ | repeat constructor].
    split; [cbn; lia | split; [unfold bounds_wf; cbn; lia | ]].
    exists 3. unfold within_bounds. cbn. repeat split; lia.
Defined.

(** ** Unmounting, new props, suppressed keys *)

(** X13: unmounting an instance with no key input in flight cancels the timer
    of the tooltip: no timer is left, and however long one waits nothing
    fires. *)
Theorem unmount_cancels_tooltip (fuel : nat) (T : Z) (w : World) :
  alive w = true -> tooltip_inv w -> popover_only w ->
  timers (dispatch Unmount w) = [] /\
  advance fuel T (dispatch Unmount w)
  = Some (set_now (Z.max (now w) T) (dispatch Unmount w)).
Proof.
  intros Ha Hi Hp.
  assert (E : timers (dispatch Unmount w) = []).
  { cbn [dispatch]. rewrite Ha. unfold unmount, componentWillUnmount. wsimpl.
    apply no_elements. intros t Ht.
    pose proof (tooltip_cleared w t Hi Ht) as Hn.
    assert (Hin : In t (timers w)).
    { destruct (timeout_ w); [ | exact Ht].
      unfold clearTimeout in Ht. wsimpl in Ht. apply filter_In in Ht. tauto. }
    destruct (Hp t Hin) as [b Hb]. unfold is_popover in Hn.
    rewrite Hb in Hn. discriminate Hn. }
  split; [exact E | ].
  assert (N : next_due T (dispatch Unmount w) = None)
    by (unfold next_due; rewrite E; reflexivity).
  assert (En : now (dispatch Unmount w) = now w).
  { cbn [dispatch]. rewrite Ha. unfold unmount, componentWillUnmount, clearTimeout.
    destruct (timeout_ w); reflexivity. }
  destruct fuel; cbn [advance]; rewrite N, En; reflexivity.
Qed.

(** X13, the witness: the pointer is over the thumb when the instance goes
    away. *)
Lemma unmount_cancels_tooltip_witness :
  timers (dispatch Unmount
            (dispatch MouseLeave (mount example_props example_rect 0))) = [] /\
  advance 0 1000 (dispatch Unmount
                    (dispatch MouseLeave (mount example_props example_rect 0)))
  = Some (set_now (Z.max 0 1000)
            (dispatch Unmount
               (dispatch MouseLeave (mount example_props example_rect 0)))).
Proof.
  apply (unmount_cancels_tooltip 0 1000
           (dispatch MouseLeave (mount example_props example_rect 0))).
  - reflexivity.
  - apply tooltip_inv_dispatch, tooltip_inv_mount.
  - intros t [<- | []]. eexists. reflexivity.
Defined.

(** X14: new props on a mounted instance make the value held equal to the
    [value] prop, whatever it was; the flags, the timers, the listeners and
    the callback log are left alone. *)
Theorem receiveProps_syncs_value (nextProps : Props) (w : World) :
  alive w = true ->
  props (dispatch (ReceiveProps nextProps) w) = nextProps /\
  st_value (state (dispatch (ReceiveProps nextProps) w)) = value nextProps /\
  isHovered (state (dispatch (ReceiveProps nextProps) w)) = isHovered (state w) /\
  isSliding (state (dispatch (ReceiveProps nextProps) w)) = isSliding (state w) /\
  timers (dispatch (ReceiveProps nextProps) w) = timers w /\
  listeners (dispatch (ReceiveProps nextProps) w) = listeners w /\
  calls (dispatch (ReceiveProps nextProps) w) = calls w.
Proof.
  intro Ha. cbn [dispatch]. rewrite Ha.
  unfold receiveProps, componentWillReceiveProps, setState, done.
  destruct (strict_neq _ _) eqn:E.
  - rewrite Ha. wsimpl. repeat split.
  - apply strict_neq_false in E. wsimpl. repeat split. symmetry. exact E.
Qed.

(** X14, the witness: the parent sets the value to 3 in the middle of a
    drag that had reached 6. *)
Lemma receiveProps_syncs_value_witness :
  let np := mkProps false (JInt 3) (Some 2) (Some 8) true true 10 in
  props (dispatch (ReceiveProps np) drag_example) = np /\
  st_value (state (dispatch (ReceiveProps np) drag_example)) = value np /\
  isHovered (state (dispatch (ReceiveProps np) drag_example))
  = isHovered (state drag_example) /\
  isSliding (state (dispatch (ReceiveProps np) drag_example))
  = isSliding (state drag_example) /\
  timers (dispatch (ReceiveProps np) drag_example) = timers drag_example /\
  listeners (dispatch (ReceiveProps np) drag_example) = listeners drag_example /\
  calls (dispatch (ReceiveProps np) drag_example) = calls drag_example.
Proof.
  intro np. apply (receiveProps_syncs_value np drag_example). reflexivity.
Defined.

Definition same_prevented (w w' : World) : Prop := prevented w' = prevented w.

Lemma same_prevented_handleTogglePopover isOpen delay w :
  same_prevented w (handleTogglePopover isOpen delay w).
Proof.
  unfold same_prevented, handleTogglePopover, clearTimeout, setTimeout.
  destruct isOpen; cbn [negb]; destruct (timeout_ w); reflexivity.
Qed.

Lemma same_prevented_keyInput_func u w :
  same_prevented w (handleDebouncedKeyInput_func u w).
Proof.
  unfold same_prevented, handleDebouncedKeyInput_func, invoke.
  destruct (onStop _); wsimpl; apply same_prevented_handleTogglePopover.
Qed.

Lemma same_prevented_handleDebouncedKeyInput w :
  same_prevented w (handleDebouncedKeyInput w).
Proof.
  unfold handleDebouncedKeyInput.
  apply R_debounced;
    try (intros a w'; apply same_prevented_keyInput_func);
    unfold same_prevented; try reflexivity; congruence.
Qed.

Lemma same_prevented_keyDown_func key w :
  same_prevented w (handleThrottledKeyDown_func key w).
Proof.
  unfold handleThrottledKeyDown_func.
  assert (K : forall (f : State -> State) value w',
             same_prevented w'
               (setState f
                  (fun w0 => invoke (onSlide (props (handleDebouncedKeyInput w0)))
                               (OnSlide value) (handleDebouncedKeyInput w0)) w')).
  { intros f value w'. unfold setState. destruct (alive w'); [ | reflexivity].
    unfold same_prevented, invoke.
    destruct (onSlide _); wsimpl;
      exact (same_prevented_handleDebouncedKeyInput (set_state (f (state w')) w')). }
  destruct (disabled (props w)).
  - unfold setState. destruct (alive w); [ | reflexivity].
    exact (same_prevented_handleTogglePopover false 400 (set_state _ w)).
  - destruct (_ || _)%bool; [apply K | ].
    destruct (_ || _)%bool; [apply K | reflexivity].
Qed.

Lemma same_prevented_handleThrottledKeyDown key w :
  same_prevented w (handleThrottledKeyDown key w).
Proof.
  unfold handleThrottledKeyDown.
  apply R_debounced;
    try (intros a w'; apply same_prevented_keyDown_func);
    unfold same_prevented; try reflexivity; congruence.
Qed.

Definition is_ignored (key : string) : bool :=
  ((key =? "Tab") || (key =? "Escape"))%string.

(** X15: a key-down on a mounted instance is suppressed
    ([event.preventDefault()]) exactly once, throttled or not, unless the
    key is Tab or Escape; on those the handler does nothing at all. *)
Theorem keyDown_suppressed_once (key : string) (w : World) :
  alive w = true ->
  if is_ignored key then dispatch (KeyDown key) w = w
  else prevented (dispatch (KeyDown key) w) = S (prevented w).
Proof.
  intro Ha. cbn [dispatch]. rewrite Ha. unfold handleKeyDown, is_ignored.
  destruct (_ || _)%bool; [reflexivity | ].
  exact (same_prevented_handleThrottledKeyDown key (preventDefault w)).
Qed.

(** X15, the witness: a letter typed while a key press is being throttled. *)
Lemma keyDown_suppressed_once_witness :
  prevented (dispatch (KeyDown "a")
               (dispatch (KeyDown "ArrowRight")
                  (mount example_props example_rect 0)))
  = S (prevented (dispatch (KeyDown "ArrowRight")
                    (mount example_props example_rect 0))).
Proof.
  apply (keyDown_suppressed_once "a"
           (dispatch (KeyDown "ArrowRight") (mount example_props example_rect 0))).
  reflexivity.
Defined.

(** ** A key on a disabled slider *)

(** No key is being throttled and the last key press is 50 ms old. *)
Definition throttle_rested (w : World) : Prop :=
  timerId (keyDownThrottle w) = None /\
  match lastCallTime (keyDownThrottle w) with
  | Some t => t + 50 <= now w
  | None => True
  end.

Lemma rested_shouldInvoke w :
  throttle_rested w ->
  shouldInvoke (throttle_options 50) (now w) (keyDownThrottle w) = true.
Proof.
  intros (_ & H). unfold shouldInvoke.
  destruct (lastCallTime (keyDownThrottle w)) as [t | ]; [ | reflexivity].
  cbn [throttle_options wait]. apply orb_true_iff. left.
  apply orb_true_iff. left. apply Z.leb_le. lia.
Qed.

(** The world after a key on a disabled instance at rest. *)
Lemma disabled_key_world (key : string) (w : World) :
  alive w = true -> disabled (props w) = true -> is_ignored key = false ->
  timers w = [] -> timeout_ w = None -> throttle_rested w ->
  dispatch (KeyDown key) w
  = set_timeout_ (Some (S (next_timer w)))
      (set_timers
         [mkTimer (next_timer w) (now w + 50) KeyDownExpired;
          mkTimer (S (next_timer w)) (now w + 400) (PopoverTimeout false)]
         (S (S (next_timer w)))
         (set_state (mkState (st_value (state w)) true (isSliding (state w)))
            (set_keyDownThrottle
               (mkDebounced None (Some (now w)) (now w) (Some (next_timer w)))
               (set_prevented (S (prevented w)) w)))).
Proof.
  intros Ha Hd Hk Ht Ho Hr. cbn [dispatch]. rewrite Ha.
  unfold handleKeyDown. unfold is_ignored in Hk. rewrite Hk.
  rewrite throttled_leading;
    [ | apply (rested_shouldInvoke (preventDefault w)); exact Hr
      | apply Hr ].
  unfold invokeFunc, modify, preventDefault. wsimpl.
  unfold handleThrottledKeyDown_func. wsimpl. rewrite Hd.
  unfold setState. wsimpl. rewrite Ha.
  unfold handleTogglePopover. cbn [negb]. wsimpl. rewrite Ho.
  unfold setTimeout. wsimpl. rewrite Ht. cbn [app].
  change (Z.max 400 0) with 400. reflexivity.
Qed.

(** X16: a key (other than Tab and Escape) on a disabled, mounted instance
    at rest opens the tooltip and closes it 400 ms later; the value is not
    changed and no callback is called. *)
Theorem disabled_key_shows_tooltip (key : string) (T : Z) (fuel : nat)
    (w : World) :
  alive w = true -> disabled (props w) = true -> is_ignored key = false ->
  timers w = [] -> timeout_ w = None -> throttle_rested w ->
  (2 <= fuel)%nat ->
  exists w',
    advance fuel T (dispatch (KeyDown key) w) = Some w' /\
    isHovered (state w') = (T <? now w + 400) /\
    st_value (state w') = st_value (state w) /\
    calls w' = calls w.
Proof.
  intros Ha Hd Hk Ht Ho Hr Hfuel.
  rewrite (disabled_key_world key w Ha Hd Hk Ht Ho Hr).
  set (n := next_timer w). set (t := now w).
  set (kt := mkTimer n (t + 50) KeyDownExpired).
  set (pt := mkTimer (S n) (t + 400) (PopoverTimeout false)).
  match goal with |- context [advance fuel T ?x] => set (w1 := x) end.
  destruct (Z.ltb_spec T (t + 50)) as [H50 | H50].
  - (* nothing is due *)
    assert (N : next_due T w1 = None).
    { unfold next_due, w1. wsimpl. cbn [earliest]. unfold kt, pt.
      cbn [deadline].
      destruct (Z.ltb_spec (t + 400) (t + 50)); [lia | ]. cbn [deadline].
      destruct (Z.leb_spec (t + 50) T); [lia | reflexivity]. }
    exists (set_now (Z.max (now w1) T) w1).
    split; [destruct fuel; cbn [advance]; rewrite N; reflexivity | ].
    unfold w1. wsimpl. repeat split.
    symmetry. apply Z.ltb_lt. lia.
  - (* the timer of the throttle fires *)
    destruct fuel as [ | fuel]; [lia | ].
    assert (D : next_due T w1 = Some kt).
    { unfold next_due, w1. wsimpl. cbn [earliest]. unfold kt, pt.
      cbn [deadline].
      destruct (Z.ltb_spec (t + 400) (t + 50)); [lia | ]. cbn [deadline].
      destruct (Z.leb_spec (t + 50) T); [reflexivity | lia]. }
    cbn [advance]. rewrite D.
    assert (F : fire kt w1
                = set_keyDownThrottle
                    (mkDebounced None (Some t) t None)
                    (set_now (t + 50) (set_timers [pt] (S (S n)) w1))).
    { unfold fire, w1, kt, pt, n, t.
      cbn [callback run_callback timer_id deadline].
      unfold keyDownExpired, timerExpired, clearTimeout. wsimpl.
      cbn [filter timer_id]. rewrite Nat.eqb_refl. cbn [negb].
      replace (Nat.eqb (S (next_timer w)) (next_timer w)) with false
        by (symmetry; apply Nat.eqb_neq; lia).
      cbn [negb].
      replace (Z.max (now w) (now w + 50)) with (now w + 50) by lia.
      unfold shouldInvoke. wsimpl. cbn [throttle_options wait].
      replace (50 <=? now w + 50 - now w) with true
        by (symmetry; apply Z.leb_le; lia).
      cbn [orb].
      unfold trailingEdge, modify, with_timerId, with_lastArgs. wsimpl.
      reflexivity. }
    rewrite F.
    match goal with |- context [advance fuel T ?x] => set (w2 := x) end.
    assert (Et : timers w2 = [pt]) by reflexivity.
    assert (Ha2 : alive w2 = true) by exact Ha.
    destruct (Z.ltb_spec T (t + 400)) as [H400 | H400].
    + rewrite (single_timer_waits T fuel w2 pt Et) by exact H400.
      eexists. split; [reflexivity | ]. unfold w2, w1. wsimpl. repeat split.
    + destruct (single_timer_fires T fuel w2 pt false Et eq_refl Ha2)
        as (w' & Hadv & Hh & _ & _ & _ & Hs & _); [exact H400 | lia | ].
      exists w'. split; [exact Hadv | ]. split; [exact Hh | ].
      destruct Hs as (_ & _ & _ & Sv & _ & _ & Sc & _).
      rewrite Sv, Sc. unfold w2, w1. wsimpl. split; reflexivity.
Qed.

(** X16, the witness: a letter typed on a disabled slider, seen 100 ms
    later. *)
Lemma disabled_key_shows_tooltip_witness :
  exists w',
    advance 2 100 (dispatch (KeyDown "a") (mount disabled_example example_rect 0))
    = Some w' /\
    isHovered (state w') = true /\
    st_value (state w') = JInt 5 /\
    calls w' = [].
Proof.
  apply (disabled_key_shows_tooltip "a" 100 2
           (mount disabled_example example_rect 0)).
  - reflexivity.
  - reflexivity.
  - reflexivity.
  - reflexivity.
  - reflexivity.
  - split; [reflexivity | exact I].
  - lia.
Defined.
